(** * Verification of the gameserver LRU storage and request handlers

    [src/src/main.rs] uses a shared [LRUStorage<u32, Tetris>] (module
    [lru_storage], not part of the sources) through three operations:
    [access_refresh], [access_refresh_mut_with_create] and [len].  The
    storage is modelled below from the spec (section 4.1): a key-to-value
    mapping together with an explicit recency order of keys, most recently
    used first.  Every caller-supplied closure invocation is recorded in a
    call log, so that "invoked exactly once" and "not invoked" are
    observable. *)

From Stdlib Require Import String Ascii ZArith List Arith Lia Bool.
Import ListNotations.

Module LRU.
Section LRUStorage.

Context {K V : Type}.
Variable K_eq_dec : forall a b : K, {a = b} + {a <> b}.

(** Modelled from the spec: the [LRUStorage] struct of the missing
    [lru_storage] module.  [capacity] is fixed at construction,
    [entries] is the key-to-value mapping and [order] the recency order
    (most recently used first, least recently used last). *)
Record LRUStorage := mkStorage {
  capacity : nat;
  entries : list (K * V);
  order : list K
}.

(** One invocation of a caller-supplied closure, with its argument. *)
Inductive closure_call :=
| CallRead (arg : option V)
| CallCreate
| CallMutate (arg : V).

Fixpoint find (k : K) (m : list (K * V)) : option V :=
  match m with
  | [] => None
  | (k', v) :: m' => if K_eq_dec k' k then Some v else find k m'
  end.

Definition keys (s : LRUStorage) : list K := map fst (entries s).

Definition remove_key (k : K) (m : list (K * V)) : list (K * V) :=
  filter (fun p => if K_eq_dec (fst p) k then false else true) m.

Definition remove_from_order (k : K) (o : list K) : list K :=
  filter (fun k' => if K_eq_dec k' k then false else true) o.

(** Move [k] to the most-recently-used position. *)
Definition touch (k : K) (o : list K) : list K := k :: remove_from_order k o.

Definition set_value (k : K) (v : V) (m : list (K * V)) : list (K * V) :=
  map (fun p => if K_eq_dec (fst p) k then (k, v) else p) m.

(** The least-recently-used key: the last one of the recency order. *)
Fixpoint lru_key (o : list K) : option K :=
  match o with
  | [] => None
  | [k] => Some k
  | _ :: o' => lru_key o'
  end.

(** Modelled from the spec: [LRUStorage::new(capacity)]. *)
Definition new (c : nat) : LRUStorage := mkStorage c [] [].

(** Modelled from the spec: [len()], the number of live entries. *)
Definition len (s : LRUStorage) : nat := length (entries s).

(** Modelled from the spec: removal of the least-recently-used entry. *)
Definition evict_lru (s : LRUStorage) : LRUStorage :=
  match lru_key (order s) with
  | None => s
  | Some lru =>
      mkStorage (capacity s) (remove_key lru (entries s)) (removelast (order s))
  end.

(** Modelled from the spec: [access_refresh(key, read_fn)].  The closure
    receives [Some v] or [None]; the operation returns what the closure
    returns (the caller [game_state] in main.rs applies [.ok_or] directly
    to the result of [access_refresh], whose closure already returns an
    [Option<String>]).  A present key is moved to the most-recently-used
    position. *)
Definition access_refresh {R : Type} (s : LRUStorage) (k : K)
    (read_fn : option V -> R) : R * LRUStorage * list closure_call :=
  match find k (entries s) with
  | Some v =>
      (read_fn (Some v),
       mkStorage (capacity s) (entries s) (touch k (order s)),
       [CallRead (Some v)])
  | None => (read_fn None, s, [CallRead None])
  end.

(** Modelled from the spec: the part of [access_refresh_mut_with_create]
    that follows the lookup of the key, given the lookup's result [found].
    Present: refresh and mutate.  Absent: call [create_fn]; if it yields a
    value, evict the least-recently-used entry first when the insertion
    would exceed the capacity, insert at the most-recently-used position,
    then mutate the new value. *)
Definition refresh_or_create (s : LRUStorage) (k : K) (found : option V)
    (create_fn : unit -> option V) (mutate_fn : V -> V)
    : LRUStorage * list closure_call :=
  match found with
  | Some v =>
      (mkStorage (capacity s) (set_value k (mutate_fn v) (entries s))
         (touch k (order s)),
       [CallMutate v])
  | None =>
      match create_fn tt with
      | None => (s, [CallCreate])
      | Some v =>
          let s1 := if capacity s <=? length (entries s) then evict_lru s else s in
          (mkStorage (capacity s1) ((k, mutate_fn v) :: entries s1) (k :: order s1),
           [CallCreate; CallMutate v])
      end
  end.

(** Modelled from the spec: [access_refresh_mut_with_create(key,
    create_fn, mutate_fn)]: look the key up, then [refresh_or_create].
    [mutate_fn] takes the value by [&mut]; it is modelled as a function
    returning the updated value. *)
Definition access_refresh_mut_with_create (s : LRUStorage) (k : K)
    (create_fn : unit -> option V) (mutate_fn : V -> V)
    : LRUStorage * list closure_call :=
  refresh_or_create s k (find k (entries s)) create_fn mutate_fn.

(** The operations a caller can perform on a storage. *)
Inductive op :=
| OpRead (k : K) (read_fn : option V -> unit)
| OpCreate (k : K) (create_fn : unit -> option V) (mutate_fn : V -> V)
| OpLen.

Definition step (s : LRUStorage) (o : op) : LRUStorage :=
  match o with
  | OpRead k f => snd (fst (access_refresh s k f))
  | OpCreate k c m => fst (access_refresh_mut_with_create s k c m)
  | OpLen => s
  end.

(** The states after each operation of a sequence. *)
Fixpoint run (s : LRUStorage) (ops : list op) : list LRUStorage :=
  match ops with
  | [] => []
  | o :: ops' => let s' := step s o in s' :: run s' ops'
  end.

(** Invariant 2 of the spec: each key has one entry in the mapping and
    one position in the recency order, and the two hold the same keys. *)
Definition wf (s : LRUStorage) : Prop :=
  NoDup (keys s) /\ NoDup (order s) /\ (forall k, In k (order s) <-> In k (keys s)).

Inductive reachable : LRUStorage -> Prop :=
| reachable_new c : reachable (new c)
| reachable_step s o : reachable s -> reachable (step s o).

End LRUStorage.

(** ** Concurrent callers

    Modelled from the spec (section 5): every public operation runs as one
    critical section under a single lock.  Two tasks [T1] and [T2] each
    call [access_refresh_mut_with_create] on the same key; a task first
    acquires the lock, then looks the key up, then completes the operation
    and releases the lock.  These are separate steps, so the scheduler may
    interleave them in any order the lock allows. *)
Section Concurrent.

Context {K V : Type}.
Variable K_eq_dec : forall a b : K, {a = b} + {a <> b}.

Inductive tid := T1 | T2.

Inductive pc :=
| Idle
| Acquired
| Looked (found : option V)
| Done.

Inductive event :=
| Acquire (t : tid)
| Call (t : tid) (c : closure_call (V := V)).

Record config := mkConfig {
  lock : option tid;
  pc1 : pc;
  pc2 : pc;
  store : LRUStorage (K := K) (V := V);
  trace : list event
}.

(** The shared key and each task's closures. *)
Variable key : K.
Variable create_of : tid -> unit -> option V.
Variable mutate_of : tid -> V -> V.

Definition pc_of (c : config) (t : tid) : pc :=
  match t with T1 => pc1 c | T2 => pc2 c end.

Definition with_pc (c : config) (t : tid) (p : pc) (l : option tid)
    (s : LRUStorage) (tr : list event) : config :=
  match t with
  | T1 => mkConfig l p (pc2 c) s tr
  | T2 => mkConfig l (pc1 c) p s tr
  end.

(** One step of task [t], or [None] when it is blocked or finished. *)
Definition task_step (c : config) (t : tid) : option config :=
  match pc_of c t with
  | Idle =>
      match lock c with
      | None => Some (with_pc c t Acquired (Some t) (store c) (trace c ++ [Acquire t]))
      | Some _ => None
      end
  | Acquired =>
      Some (with_pc c t (Looked (find K_eq_dec key (entries (store c))))
              (lock c) (store c) (trace c))
  | Looked found =>
      let r := refresh_or_create K_eq_dec (store c) key found (create_of t) (mutate_of t) in
      Some (with_pc c t Done None (fst r) (trace c ++ map (Call t) (snd r)))
  | Done => None
  end.

Inductive sched_step : config -> config -> Prop :=
| sched_step_task c c' t : task_step c t = Some c' -> sched_step c c'.

Inductive sched_steps : config -> config -> Prop :=
| sched_refl c : sched_steps c c
| sched_trans c1 c2 c3 :
    sched_step c1 c2 -> sched_steps c2 c3 -> sched_steps c1 c3.

Definition init_config (s : LRUStorage) : config := mkConfig None Idle Idle s [].

Definition other (t : tid) : tid := match t with T1 => T2 | T2 => T1 end.

(** The configurations the two tasks pass through when task [a] takes the
    lock first, starting from storage [s0] where the key is absent. *)
Definition serial_phase (s0 : LRUStorage) (a : tid) (c : config) : Prop :=
  let b := other a in
  let r1 := refresh_or_create K_eq_dec s0 key None (create_of a) (mutate_of a) in
  let s1 := fst r1 in
  let L1 := [Acquire a] ++ map (Call a) (snd r1) in
  let r2 := refresh_or_create K_eq_dec s1 key (find K_eq_dec key (entries s1))
              (create_of b) (mutate_of b) in
  (lock c = Some a /\ pc_of c a = Acquired /\ pc_of c b = Idle /\
     store c = s0 /\ trace c = [Acquire a]) \/
  (lock c = Some a /\ pc_of c a = Looked None /\ pc_of c b = Idle /\
     store c = s0 /\ trace c = [Acquire a]) \/
  (lock c = None /\ pc_of c a = Done /\ pc_of c b = Idle /\
     store c = s1 /\ trace c = L1) \/
  (lock c = Some b /\ pc_of c a = Done /\ pc_of c b = Acquired /\
     store c = s1 /\ trace c = L1 ++ [Acquire b]) \/
  (lock c = Some b /\ pc_of c a = Done /\
     pc_of c b = Looked (find K_eq_dec key (entries s1)) /\
     store c = s1 /\ trace c = L1 ++ [Acquire b]) \/
  (lock c = None /\ pc_of c a = Done /\ pc_of c b = Done /\
     store c = fst r2 /\ trace c = (L1 ++ [Acquire b]) ++ map (Call b) (snd r2)).

Definition serial_inv (s0 : LRUStorage) (c : config) : Prop :=
  c = init_config s0 \/ exists a, serial_phase s0 a c.

End Concurrent.
End LRU.

(** ** Request handlers of main.rs *)
Module Server.
Import LRU.

(** A cookie as [rocket::http::Cookie]: name and value. *)
Record Cookie := mkCookie { cookie_name : string; cookie_value : string }.

(** [rocket::http::CookieJar]: the cookies of the request, and the pending
    additions that go into the response.  [get] reads the request cookies,
    [add] records a pending addition. *)
Record CookieJar := mkJar { jar_cookies : list Cookie; jar_added : list Cookie }.

Definition jar_get (name : string) (j : CookieJar) : option Cookie :=
  List.find (fun c => String.eqb (cookie_name c) name) (jar_cookies j).

Definition jar_add (c : Cookie) (j : CookieJar) : CookieJar :=
  mkJar (jar_cookies j) (jar_added j ++ [c]).

Definition u32_max : Z := 4294967295.

Definition digit_value (c : ascii) : option Z :=
  let n := nat_of_ascii c in
  if (48 <=? n) && (n <=? 57) then Some (Z.of_nat n - 48)%Z else None.

(** The digit loop of [u32::from_str_radix(s, 10)]: [checked_mul] then
    [checked_add], failing on a non-digit or on overflow. *)
Fixpoint parse_digits (s : string) (acc : Z) : option Z :=
  match s with
  | EmptyString => Some acc
  | String c s' =>
      match digit_value c with
      | None => None
      | Some d =>
          let m := (acc * 10)%Z in
          if (m <=? u32_max)%Z then
            let a := (m + d)%Z in
            if (a <=? u32_max)%Z then parse_digits s' a else None
          else None
      end
  end.

(** [s.parse::<u32>()]: an empty string fails; a lone sign fails; a
    leading [+] is skipped; for an unsigned type a [-] is not a sign and
    fails as a digit. *)
Definition parse_u32 (s : string) : option Z :=
  match s with
  | EmptyString => None
  | String "+" EmptyString => None
  | String "-" EmptyString => None
  | String "+" rest => parse_digits rest 0
  | _ => parse_digits s 0
  end.

Definition digit_char (d : Z) : ascii := ascii_of_nat (48 + Z.to_nat d).

Fixpoint dec_aux (fuel : nat) (n : Z) (acc : string) : string :=
  match fuel with
  | O => acc
  | S f =>
      let acc' := String (digit_char (n mod 10)) acc in
      if (n <? 10)%Z then acc' else dec_aux f (n / 10) acc'
  end.

(** [to_string] of an unsigned integer (up to 64 bits, 20 digits). *)
Definition to_string (n : Z) : string := dec_aux 20 n EmptyString.

(** [user_id]: the value [rnd] stands for what [rand::random::<u32>()]
    returns on this call. *)
Definition user_id (cookie_jar : CookieJar) (rnd : Z) : Z * CookieJar :=
  match option_map (fun c => parse_u32 (cookie_value c)) (jar_get "user_id" cookie_jar) with
  | Some (Some uid) => (uid, cookie_jar)
  | _ => (rnd, jar_add (mkCookie "user_id" (to_string rnd)) cookie_jar)
  end.

Section Handlers.

(** The game state type of the missing [tetris] module, its constructor
    [Tetris::new] and its JSON serialisation. *)
Context {Tetris : Type}.
Variable tetris_new : nat -> nat -> Tetris.
Variable tetris_json : Tetris -> string.

Definition Tetrises := LRUStorage (K := Z) (V := Tetris).

(** [index]: the response body, the cookie jar and the storage after the
    request. *)
Definition index (cookie_jar : CookieJar) (rnd : Z) (tetrises : Tetrises)
    : string * CookieJar * Tetrises :=
  let '(uid, jar') := user_id cookie_jar rnd in
  let '(t', _) :=
    access_refresh_mut_with_create Z.eq_dec tetrises uid
      (fun _ => Some (tetris_new 10 20)) (fun t => t) in
  (to_string (Z.of_nat (len t')), jar', t').

(** The closure [game_state] passes to [access_refresh]. *)
Definition game_state_read (t : option Tetris) : option string :=
  option_map tetris_json t.

(** [game_state]: [inl] is the JSON body, [inr] the 404 message. *)
Definition game_state (cookie_jar : CookieJar) (rnd : Z) (tetrises : Tetrises)
    : (string + string) * CookieJar * Tetrises :=
  let '(uid, jar') := user_id cookie_jar rnd in
  let '(r, t', _) := access_refresh Z.eq_dec tetrises uid game_state_read in
  (match r with Some j => inl j | None => inr "User not found"%string end, jar', t').

(** A request to one of the two routes that use the storage, with the
    request's cookies and the value [rand::random] would return. *)
Inductive request :=
| GetIndex (cookie_jar : CookieJar) (rnd : Z)
| GetGameState (cookie_jar : CookieJar) (rnd : Z).

Inductive response :=
| IndexBody (body : string)
| GameStateBody (r : string + string).

Definition handle (tetrises : Tetrises) (r : request) : response * Tetrises :=
  match r with
  | GetIndex j n => let '(b, _, t') := index j n tetrises in (IndexBody b, t')
  | GetGameState j n => let '(g, _, t') := game_state j n tetrises in (GameStateBody g, t')
  end.

(** The managed storage shared by a sequence of requests, handled one after
    the other. *)
Fixpoint serve (tetrises : Tetrises) (reqs : list request) : list response * Tetrises :=
  match reqs with
  | [] => ([], tetrises)
  | r :: reqs' =>
      let '(resp, t') := handle tetrises r in
      let '(resps, t'') := serve t' reqs' in
      (resp :: resps, t'')
  end.

End Handlers.
(** ** Paths (Unix), as [std::path] handles them *)

Local Open Scope string_scope.

Fixpoint split_on (sep : ascii) (s : string) : list string :=
  match s with
  | EmptyString => [EmptyString]
  | String c s' =>
      let rest := split_on sep s' in
      if Ascii.eqb c sep then EmptyString :: rest
      else match rest with
           | h :: t => String c h :: t
           | [] => [String c EmptyString]
           end
  end.

(** The non-root components of a path: empty segments and [.] segments
    are skipped, as [Path::components] does. *)
Definition components (p : string) : list string :=
  filter (fun seg => negb (String.eqb seg "") && negb (String.eqb seg "."))
    (split_on "/" p).

(** [Path::file_name]: the last component if it is a normal one (not
    [..]); [None] for a path without components. *)
Definition file_name (p : string) : option string :=
  match rev (components p) with
  | n :: _ => if String.eqb n ".." then None else Some n
  | [] => None
  end.

(** [Path::parent] of a relative path made of normal components. *)
Definition parent (p : string) : option string :=
  match components p with
  | [] => None
  | comps => Some (String.concat "/" (removelast comps))
  end.

(** The split of [rsplitn(2, '.')]: text before and after the last dot. *)
Fixpoint last_dot_split (s : string) : option (string * string) :=
  match s with
  | EmptyString => None
  | String c s' =>
      match last_dot_split s' with
      | Some (b, a) => Some (String c b, a)
      | None => if Ascii.eqb c "." then Some (EmptyString, s') else None
      end
  end.

(** [rsplit_file_at_dot] of [std::path]. *)
Definition rsplit_file_at_dot (file : string) : option string * option string :=
  if String.eqb file ".." then (Some file, None)
  else match last_dot_split file with
       | None => (None, Some file)
       | Some (before, after) =>
           if String.eqb before "" then (Some file, None) else (Some before, Some after)
       end.

(** [Path::file_stem]. *)
Definition file_stem (p : string) : option string :=
  match file_name p with
  | None => None
  | Some f =>
      let '(before, after) := rsplit_file_at_dot f in
      match before with Some b => Some b | None => after end
  end.

Definition byte_in (lo hi : nat) (b : nat) : bool := Nat.leb lo b && Nat.leb b hi.

(** UTF-8 validation of [core::str::from_utf8]: lead byte classes and the
    ranges allowed for the first continuation byte (no overlong forms, no
    surrogates, nothing above U+10FFFF). *)
Fixpoint valid_utf8 (bs : list nat) : bool :=
  match bs with
  | [] => true
  | b :: r =>
      if Nat.ltb b 128 then valid_utf8 r
      else if byte_in 194 223 b then
        match r with
        | c1 :: r' => byte_in 128 191 c1 && valid_utf8 r'
        | [] => false
        end
      else if byte_in 224 239 b then
        match r with
        | c1 :: c2 :: r' =>
            (if Nat.eqb b 224 then byte_in 160 191 c1
             else if Nat.eqb b 237 then byte_in 128 159 c1
             else byte_in 128 191 c1) &&
            byte_in 128 191 c2 && valid_utf8 r'
        | _ => false
        end
      else if byte_in 240 244 b then
        match r with
        | c1 :: c2 :: c3 :: r' =>
            (if Nat.eqb b 240 then byte_in 144 191 c1
             else if Nat.eqb b 244 then byte_in 128 143 c1
             else byte_in 128 191 c1) &&
            byte_in 128 191 c2 && byte_in 128 191 c3 && valid_utf8 r'
        | _ => false
        end
      else false
  end.

(** [OsStr::to_str]: the string when its bytes are valid UTF-8. *)
Definition to_str (s : string) : option string :=
  if valid_utf8 (map nat_of_ascii (list_ascii_of_string s)) then Some s else None.

(** The database file name computed in [init] from the executable path:
    [file_stem], then [to_str], defaulting to ["gameserver"], plus [".db"]. *)
Definition db_name (exe_name : string) : string :=
  let stem := match file_stem exe_name with
              | Some s => match to_str s with Some s' => s' | None => "gameserver" end
              | None => "gameserver"
              end in
  stem ++ ".db".

(** [PathBuf::push]: an absolute path replaces the buffer; otherwise a
    separator is added unless the buffer is empty or already ends with
    one. *)
Definition push_path (buf p : string) : string :=
  match p with
  | String "/" _ => p
  | _ =>
      match rev (list_ascii_of_string buf) with
      | [] => p
      | "/"%char :: _ => buf ++ p
      | _ => buf ++ "/" ++ p
      end
  end.

(** [PathBuf::pop]: truncate the buffer to its parent; no change when
    it has none. *)
Definition pop_path (buf : string) : string :=
  match parent buf with Some p => p | None => buf end.

Definition starts_with (c : ascii) (s : string) : bool :=
  match s with String c' _ => Ascii.eqb c' c | EmptyString => false end.

Definition ends_with (c : ascii) (s : string) : bool :=
  match rev (list_ascii_of_string s) with c' :: _ => Ascii.eqb c' c | [] => false end.

Definition contains (c : ascii) (s : string) : bool :=
  existsb (fun c' => Ascii.eqb c' c) (list_ascii_of_string s).

(** The checks Rocket's [Segments::to_path_buf] makes on a segment other
    than [..] (Unix, dotfiles not allowed, as the [PathBuf] guard calls
    it): a segment is refused if it starts with [.] or [*], ends with
    [:], [>] or [<], or holds a [/]. *)
Definition segment_ok (seg : string) : bool :=
  negb (starts_with "." seg || starts_with "*" seg || ends_with ":" seg ||
        ends_with ">" seg || ends_with "<" seg || contains "/" seg).

(** Rocket's [Segments::to_path_buf] from the buffer [buf]: [..] pops the
    last component, any other segment is checked and pushed; [None] is the
    guard's error (the request does not reach [files]). *)
Fixpoint to_path_buf_from (buf : string) (segs : list string) : option string :=
  match segs with
  | [] => Some buf
  | seg :: segs' =>
      if String.eqb seg ".." then to_path_buf_from (pop_path buf) segs'
      else if segment_ok seg then to_path_buf_from (push_path buf seg) segs'
      else None
  end.

(** The [PathBuf] the [<file..>] guard builds from the non-empty,
    percent-decoded segments of the request path. *)
Definition to_path_buf (segs : list string) : option string := to_path_buf_from "" segs.

(** The same walk over the segments at the level of component lists:
    [..] drops the last component, any other segment is appended. *)
Fixpoint resolve (acc segs : list string) : list string :=
  match segs with
  | [] => acc
  | seg :: segs' =>
      if String.eqb seg ".." then resolve (removelast acc) segs'
      else resolve (acc ++ [seg]) segs'
  end.

(** A segment that [push] appends as one normal component: not empty, no
    leading dot, no separator. *)
Definition normal_segment (seg : string) : bool :=
  match seg with
  | EmptyString => false
  | String c _ =>
      negb (Ascii.eqb c ".") &&
      forallb (fun c' => negb (Ascii.eqb c' "/")) (list_ascii_of_string seg)
  end.

(** The file [files] opens for the path [file]. *)
Definition files_target (file : string) : string :=
  let path := match parent file with Some p => p | None => "" end in
  let name := match file_name file with Some n => n | None => "" end in
  if String.eqb name "" then push_path (push_path "static/" path) "index.html"
  else push_path (push_path "static/" path) name.

End Server.

(** * Properties of the LRU storage *)
Module LRUProofs.
Import LRU.

Section Facts.
Context {K V : Type}.
Variable K_eq_dec : forall a b : K, {a = b} + {a <> b}.

Local Abbreviation storage := (LRUStorage (K := K) (V := V)).
Local Abbreviation find := (find K_eq_dec).
Local Abbreviation keys := (keys (K := K) (V := V)).
Local Abbreviation remove_key := (remove_key K_eq_dec).
Local Abbreviation remove_from_order := (remove_from_order K_eq_dec).
Local Abbreviation touch := (touch K_eq_dec).
Local Abbreviation set_value := (set_value K_eq_dec).
Local Abbreviation evict_lru := (evict_lru K_eq_dec).
Local Abbreviation wf := (wf (K := K) (V := V)).

Lemma find_none_iff (k : K) (m : list (K * V)) :
  find k m = None <-> ~ In k (map fst m).
Proof.
  induction m as [|[k' v] m IH]; simpl; [tauto|].
  destruct (K_eq_dec k' k) as [->|Hne]; split; intro H.
  - discriminate.
  - exfalso; apply H; left; reflexivity.
  - intros [E|Hin]; [congruence|]. apply IH in H; contradiction.
  - apply IH. intro Hin; apply H; right; exact Hin.
Qed.

Lemma find_some_in (k : K) (v : V) (m : list (K * V)) :
  find k m = Some v -> In k (map fst m).
Proof.
  intro H. destruct (in_dec K_eq_dec k (map fst m)) as [Hin|Hnin]; [exact Hin|].
  apply find_none_iff in Hnin. congruence.
Qed.

Lemma keys_remove_key (l : K) (m : list (K * V)) :
  map fst (remove_key l m) = remove_from_order l (map fst m).
Proof.
  induction m as [|[k v] m IH]; simpl; [reflexivity|].
  destruct (K_eq_dec k l); simpl; [exact IH|f_equal; exact IH].
Qed.

Lemma keys_set_value (k : K) (v : V) (m : list (K * V)) :
  map fst (set_value k v m) = map fst m.
Proof.
  induction m as [|[k' v'] m IH]; simpl; [reflexivity|].
  destruct (K_eq_dec k' k) as [->|]; simpl; f_equal; exact IH.
Qed.

Lemma in_remove_from_order (l k : K) (o : list K) :
  In k (remove_from_order l o) <-> In k o /\ k <> l.
Proof.
  unfold LRU.remove_from_order. rewrite filter_In.
  destruct (K_eq_dec k l); split; intros [H1 H2]; try split; auto; discriminate.
Qed.

Lemma nodup_remove_from_order (l : K) (o : list K) :
  NoDup o -> NoDup (remove_from_order l o).
Proof. apply NoDup_filter. Qed.

Lemma remove_from_order_absent (l : K) (o : list K) :
  ~ In l o -> remove_from_order l o = o.
Proof.
  induction o as [|k o IH]; simpl; intro Hnin; [reflexivity|].
  destruct (K_eq_dec k l) as [->|Hne].
  - exfalso; apply Hnin; left; reflexivity.
  - f_equal; apply IH; tauto.
Qed.

Lemma length_remove_from_order (l : K) (o : list K) :
  NoDup o -> In l o -> length (remove_from_order l o) = length o - 1.
Proof.
  induction o as [|k o IH]; simpl; intros Hnd Hin; [contradiction|].
  inversion Hnd as [|? ? Hk Hnd']; subst.
  destruct (K_eq_dec k l) as [->|Hne].
  - rewrite remove_from_order_absent by exact Hk. lia.
  - destruct Hin as [E|Hin]; [congruence|].
    simpl. rewrite IH by assumption.
    destruct o; [contradiction|simpl; lia].
Qed.

Lemma lru_key_none (o : list K) : lru_key o = None -> o = [].
Proof.
  induction o as [|k o IH]; simpl; [reflexivity|].
  destruct o as [|k' o]; [discriminate|]. intro H; apply IH in H; discriminate.
Qed.

Lemma lru_key_some (o : list K) (l : K) :
  lru_key o = Some l -> o = removelast o ++ [l].
Proof.
  induction o as [|k o IH]; simpl; [discriminate|].
  destruct o as [|k' o].
  - intro H; injection H as ->; reflexivity.
  - intro H. simpl in IH |- *. rewrite (IH H) at 1. reflexivity.
Qed.

Lemma lru_key_in (o : list K) (l : K) : lru_key o = Some l -> In l o.
Proof.
  intro H. rewrite (lru_key_some o l H). apply in_or_app; right; left; reflexivity.
Qed.

Lemma in_removelast_lru (o : list K) (l k : K) :
  NoDup o -> lru_key o = Some l ->
  (In k (removelast o) <-> In k o /\ k <> l).
Proof.
  intros Hnd Hl. pose proof (lru_key_some o l Hl) as E.
  rewrite E in Hnd. apply NoDup_remove_2 in Hnd. rewrite app_nil_r in Hnd.
  rewrite E at 2. rewrite in_app_iff. simpl.
  split.
  - intro H. split; [left; exact H|]. intros ->. contradiction.
  - intros [[H|[H|[]]] Hne]; [exact H|congruence].
Qed.

Lemma nodup_removelast (o : list K) : NoDup o -> NoDup (removelast o).
Proof.
  destruct (lru_key o) as [l|] eqn:Hl.
  - rewrite (lru_key_some o l Hl) at 1. intro H.
    apply NoDup_app_remove_r in H. exact H.
  - apply lru_key_none in Hl; subst; simpl; auto.
Qed.

Lemma wf_evict (s : storage) :
  wf s ->
  wf (evict_lru s) /\ capacity (evict_lru s) = capacity s /\
  (forall k, In k (keys (evict_lru s)) -> In k (keys s)).
Proof.
  intros (Hk & Ho & Heq). unfold LRU.evict_lru.
  destruct (lru_key (order s)) as [l|] eqn:Hl;
    [|split; [split; [exact Hk|split; [exact Ho|exact Heq]]|split; auto]].
  assert (Hks : keys (mkStorage (capacity s) (remove_key l (entries s))
                  (removelast (order s))) = remove_from_order l (keys s))
    by apply keys_remove_key.
  unfold LRU.wf. rewrite Hks. simpl.
  repeat split.
  - apply nodup_remove_from_order; exact Hk.
  - apply nodup_removelast; exact Ho.
  - intro H. rewrite in_remove_from_order.
    apply (in_removelast_lru (order s) l k Ho Hl) in H.
    destruct H as [H1 H2]; split; [apply Heq|]; auto.
  - intro H. rewrite in_remove_from_order in H.
    apply (in_removelast_lru (order s) l k Ho Hl).
    destruct H as [H1 H2]; split; [apply Heq|]; auto.
  - intros k H. rewrite in_remove_from_order in H. tauto.
Qed.

Lemma len_evict (s : storage) :
  wf s -> keys s <> [] -> len (evict_lru s) = len s - 1.
Proof.
  intros (Hk & Ho & Heq) Hne. unfold LRU.evict_lru.
  destruct (lru_key (order s)) as [l|] eqn:Hl.
  - unfold len; simpl. rewrite <- (length_map fst), keys_remove_key.
    change (map fst (entries s)) with (keys s).
    rewrite length_remove_from_order; auto.
    + unfold LRU.keys. rewrite length_map. reflexivity.
    + apply Heq, lru_key_in; exact Hl.
  - apply lru_key_none in Hl. exfalso. destruct (keys s) as [|k ks] eqn:E; [congruence|].
    assert (In k (order s)) as Hin by (apply Heq; left; reflexivity).
    rewrite Hl in Hin; contradiction.
Qed.

Lemma capacity_evict (s : storage) : capacity (evict_lru s) = capacity s.
Proof. unfold LRU.evict_lru. destruct (lru_key (order s)); reflexivity. Qed.

Lemma wf_refreshed (s : storage) (k : K) (m : list (K * V)) :
  wf s -> In k (keys s) -> map fst m = keys s ->
  wf (mkStorage (capacity s) m (touch k (order s))).
Proof.
  intros (Hk & Ho & Heq) Hin Hm. unfold LRU.wf, LRU.keys; simpl. rewrite Hm.
  repeat split; auto.
  - constructor.
    + rewrite in_remove_from_order. tauto.
    + apply nodup_remove_from_order; exact Ho.
  - intros [->|H]; [exact Hin|]. apply in_remove_from_order in H. apply Heq; tauto.
  - intro H. destruct (K_eq_dec k k0) as [->|Hne]; [left; reflexivity|right].
    apply in_remove_from_order. split; [apply Heq; exact H|auto].
Qed.

Lemma state_access_refresh {R : Type} (s : storage) (k : K) (f : option V -> R) :
  snd (fst (access_refresh K_eq_dec s k f)) =
  match find k (entries s) with
  | Some _ => mkStorage (capacity s) (entries s) (touch k (order s))
  | None => s
  end.
Proof. unfold access_refresh. destruct (find k (entries s)); reflexivity. Qed.

Lemma wf_access_refresh {R : Type} (s : storage) (k : K) (f : option V -> R) :
  wf s -> wf (snd (fst (access_refresh K_eq_dec s k f))).
Proof.
  intro Hwf. rewrite state_access_refresh.
  destruct (find k (entries s)) as [v|] eqn:Hf; [|exact Hwf].
  apply wf_refreshed; auto. eapply find_some_in; eauto.
Qed.

Lemma wf_amwc (s : storage) (k : K) c m :
  wf s -> wf (fst (access_refresh_mut_with_create K_eq_dec s k c m)).
Proof.
  intro Hwf. unfold access_refresh_mut_with_create, refresh_or_create.
  destruct (find k (entries s)) as [v|] eqn:Hf.
  - simpl. apply wf_refreshed; auto.
    + eapply find_some_in; eauto.
    + apply keys_set_value.
  - destruct (c tt) as [v|]; [|exact Hwf]. simpl.
    set (s1 := if capacity s <=? length (entries s) then evict_lru s else s).
    assert (H1 : wf s1 /\ forall k', In k' (keys s1) -> In k' (keys s)).
    { unfold s1. destruct (capacity s <=? length (entries s)).
      - destruct (wf_evict s Hwf) as (? & _ & ?); auto.
      - auto. }
    destruct H1 as [(Hk & Ho & Heq) Hsub].
    apply find_none_iff in Hf. fold (keys s) in Hf.
    unfold LRU.wf, LRU.keys; simpl. fold (keys s1).
    repeat split.
    + constructor; auto.
    + constructor; auto. rewrite Heq; auto.
    + intros [->|H]; [left; reflexivity|right; apply Heq; exact H].
    + intros [->|H]; [left; reflexivity|right; apply Heq; exact H].
Qed.

Lemma wf_step (s : storage) (o : op (K := K) (V := V)) : wf s -> wf (step K_eq_dec s o).
Proof.
  destruct o; simpl; auto using wf_access_refresh, wf_amwc.
Qed.

Lemma capacity_step (s : storage) (o : op (K := K) (V := V)) :
  capacity (step K_eq_dec s o) = capacity s.
Proof.
  destruct o as [k f|k c m|]; simpl; auto.
  - rewrite state_access_refresh. destruct (find k (entries s)); reflexivity.
  - unfold access_refresh_mut_with_create, refresh_or_create.
    destruct (find k (entries s)); [reflexivity|].
    destruct (c tt); [simpl|reflexivity].
    destruct (capacity s <=? length (entries s)); [|reflexivity].
    apply capacity_evict.
Qed.

Lemma len_step (s : storage) (o : op (K := K) (V := V)) :
  wf s -> 0 < capacity s -> len s <= capacity s ->
  len (step K_eq_dec s o) <= capacity s.
Proof.
  intros Hwf Hc Hl. destruct o as [k f|k c m|]; simpl; auto.
  - rewrite state_access_refresh. destruct (find k (entries s)); exact Hl.
  - unfold access_refresh_mut_with_create, refresh_or_create.
    destruct (find k (entries s)) as [v|].
    + unfold len, LRU.set_value; simpl. rewrite length_map. exact Hl.
    + destruct (c tt) as [v|]; [|exact Hl].
      destruct (capacity s <=? length (entries s)) eqn:Hfull.
      * apply Nat.leb_le in Hfull.
        assert (keys s <> []) as Hne.
        { unfold LRU.keys. intro E. apply (f_equal (@length K)) in E.
          rewrite length_map in E. simpl in E. unfold len in Hl. lia. }
        pose proof (len_evict s Hwf Hne) as E.
        unfold len in E |- *; simpl. rewrite E. unfold len in Hl. lia.
      * apply Nat.leb_gt in Hfull. unfold len; simpl. lia.
Qed.

Lemma run_invariant (s : storage) (ops : list (op (K := K) (V := V))) :
  wf s -> 0 < capacity s -> len s <= capacity s ->
  Forall (fun s' => wf s' /\ capacity s' = capacity s /\ len s' <= capacity s)
    (run K_eq_dec s ops).
Proof.
  revert s. induction ops as [|o ops IH]; intros s Hwf Hc Hl; simpl; constructor.
  - split; [apply wf_step; exact Hwf|]. split; [apply capacity_step|].
    apply len_step; auto.
  - rewrite <- (capacity_step s o). apply IH.
    + apply wf_step; exact Hwf.
    + rewrite capacity_step; exact Hc.
    + rewrite capacity_step. apply len_step; auto.
Qed.

Lemma wf_new (c : nat) : wf (new c).
Proof.
  unfold LRU.wf, LRU.keys, new; simpl. split; [constructor|split; [constructor|tauto]].
Qed.

(** C1 (capacity invariant).  For every sequence of operations
    ([access_refresh], [access_refresh_mut_with_create], [len]) applied to
    [new c] with [c > 0], the number of live entries after each operation
    is at most [c]. *)
Theorem capacity_invariant (c : nat) (ops : list (op (K := K) (V := V))) :
  0 < c -> Forall (fun s => len s <= c) (run K_eq_dec (new c) ops).
Proof.
  intro Hc.
  assert (H := run_invariant (new c) ops (wf_new c) Hc (Nat.le_0_l c)).
  simpl in H. eapply Forall_impl; [|exact H]. simpl. tauto.
Qed.

Lemma reachable_inv (s : storage) :
  reachable K_eq_dec s -> wf s /\ (0 < capacity s -> len s <= capacity s).
Proof.
  induction 1 as [c|s o _ [Hwf Hl]].
  - split; [apply wf_new|]. intros _. apply Nat.le_0_l.
  - split; [apply wf_step; exact Hwf|]. rewrite capacity_step. intro Hc.
    apply len_step; auto.
Qed.

Lemma find_remove_key (l k : K) (m : list (K * V)) :
  k <> l -> find k (remove_key l m) = find k m.
Proof.
  intro Hne. induction m as [|[k' v] m IH]; simpl; [reflexivity|].
  destruct (K_eq_dec k' l) as [->|Hne']; simpl.
  - destruct (K_eq_dec l k); [congruence|exact IH].
  - destruct (K_eq_dec k' k); [reflexivity|exact IH].
Qed.

Lemma find_cons_other (k k' : K) (v : V) (m : list (K * V)) :
  k' <> k -> find k' ((k, v) :: m) = find k' m.
Proof. intro Hne. simpl. destruct (K_eq_dec k k'); [congruence|reflexivity]. Qed.

Lemma lru_key_exists (s : storage) :
  wf s -> keys s <> [] -> exists l, lru_key (order s) = Some l.
Proof.
  intros (_ & _ & Heq) Hne. destruct (lru_key (order s)) as [l|] eqn:Hl; [eauto|].
  apply lru_key_none in Hl. destruct (keys s) as [|k ks] eqn:E; [congruence|].
  assert (In k (order s)) as Hin by (apply Heq; left; reflexivity).
  rewrite Hl in Hin; contradiction.
Qed.

Lemma access_refresh_keeps_keys {R : Type} (s : storage) (k : K) (read_fn : option V -> R) :
  keys (snd (fst (access_refresh K_eq_dec s k read_fn))) = keys s.
Proof.
  rewrite state_access_refresh. destruct (find k (entries s)); reflexivity.
Qed.

Lemma amwc_removed_key (s : storage) (k : K) (create_fn : unit -> option V)
    (mutate_fn : V -> V) (k' : K) :
  In k' (keys s) ->
  ~ In k' (keys (fst (access_refresh_mut_with_create K_eq_dec s k create_fn mutate_fn))) ->
  exists v, find k (entries s) = None /\ create_fn tt = Some v /\
    capacity s <= len s /\ lru_key (order s) = Some k'.
Proof.
  intros Hin Hout. unfold access_refresh_mut_with_create, refresh_or_create in Hout.
  destruct (find k (entries s)) as [v0|] eqn:Hf.
  - exfalso. apply Hout. unfold LRU.keys; simpl. rewrite keys_set_value. exact Hin.
  - destruct (create_fn tt) as [v|] eqn:Hc; [|contradiction].
    exists v. split; [reflexivity|split; [reflexivity|]].
    destruct (capacity s <=? length (entries s)) eqn:Hfull.
    + apply Nat.leb_le in Hfull. split; [exact Hfull|].
      unfold LRU.evict_lru in Hout. destruct (lru_key (order s)) as [l|] eqn:Hl.
      * destruct (K_eq_dec k' l) as [->|Hne]; [reflexivity|].
        exfalso. apply Hout. unfold LRU.keys; simpl. right.
        rewrite keys_remove_key. apply in_remove_from_order. split; [exact Hin|exact Hne].
      * exfalso. apply Hout. unfold LRU.keys; simpl. right. exact Hin.
    + exfalso. apply Hout. unfold LRU.keys; simpl. right. exact Hin.
Qed.

(** C2 (eviction correctness).  Inserting an absent key [k] (its
    [create_fn] yields a value) into a reachable storage of positive
    capacity: when the storage is full, exactly the least-recently-used
    key (the last of the recency order before the call) is removed, every
    other entry keeps its value, and the size stays at capacity; when it is
    not full, no entry is removed.  Eviction happens only there: on any
    storage, [access_refresh] never removes an entry, and a call of
    [access_refresh_mut_with_create] that removes one is a call on an
    absent key whose [create_fn] yields a value, made while the storage
    holds at least [capacity] entries, and what it removes is the
    least-recently-used key. *)
Theorem eviction_removes_exactly_lru :
  (forall (s : storage) (k : K) (create_fn : unit -> option V) (mutate_fn : V -> V) (v : V),
     reachable K_eq_dec s -> 0 < capacity s ->
     find k (entries s) = None -> create_fn tt = Some v ->
     let s' := fst (access_refresh_mut_with_create K_eq_dec s k create_fn mutate_fn) in
     (len s = capacity s ->
        exists lru, lru_key (order s) = Some lru /\
          (forall k', In k' (keys s') <-> k' = k \/ (In k' (keys s) /\ k' <> lru)) /\
          (forall k', k' <> k -> k' <> lru -> find k' (entries s') = find k' (entries s)) /\
          len s' = len s) /\
     (len s < capacity s ->
        (forall k', In k' (keys s') <-> k' = k \/ In k' (keys s)) /\
        (forall k', k' <> k -> find k' (entries s') = find k' (entries s)) /\
        len s' = S (len s))) /\
  (forall (R : Type) (s : storage) (k : K) (read_fn : option V -> R),
     keys (snd (fst (access_refresh K_eq_dec s k read_fn))) = keys s) /\
  (forall (s : storage) (k : K) (create_fn : unit -> option V) (mutate_fn : V -> V) (k' : K),
     In k' (keys s) ->
     ~ In k' (keys (fst (access_refresh_mut_with_create K_eq_dec s k create_fn mutate_fn))) ->
     exists v, find k (entries s) = None /\ create_fn tt = Some v /\
       capacity s <= len s /\ lru_key (order s) = Some k').
Proof.
  split; [|split; [intros R s k read_fn; apply access_refresh_keeps_keys|exact amwc_removed_key]].
  intros s k create_fn mutate_fn v Hr Hc Hf Hcr s'.
  destruct (reachable_inv s Hr) as [Hwf Hbound].
  unfold s', access_refresh_mut_with_create, refresh_or_create.
  rewrite Hf, Hcr. split; intro Hlen.
  - assert (Hfull : (capacity s <=? length (entries s)) = true)
      by (apply Nat.leb_le; unfold len in Hlen; lia).
    rewrite Hfull.
    assert (Hne : keys s <> []).
    { unfold LRU.keys. intro E. apply (f_equal (@length K)) in E.
      rewrite length_map in E. simpl in E. unfold len in Hlen. lia. }
    destruct (lru_key_exists s Hwf Hne) as [l Hl].
    exists l. split; [exact Hl|].
    pose proof (len_evict s Hwf Hne) as Hle.
    unfold LRU.evict_lru in Hle |- *. rewrite Hl in Hle |- *.
    unfold LRU.keys; simpl.
    rewrite keys_remove_key. change (map fst (entries s)) with (keys s).
    split; [|split].
    + intro k'. rewrite in_remove_from_order.
      split; intros [H|H]; auto.
    + intros k' Hk Hl'. destruct (K_eq_dec k k'); [congruence|].
      apply find_remove_key; exact Hl'.
    + unfold len in Hle |- *. simpl in Hle |- *. rewrite Hle. unfold len in Hlen. lia.
  - assert (Hnf : (capacity s <=? length (entries s)) = false)
      by (apply Nat.leb_gt; unfold len in Hlen; lia).
    rewrite Hnf. unfold LRU.keys; simpl. change (map fst (entries s)) with (keys s).
    split; [|split].
    + intro k'. split; intros [H|H]; auto.
    + intros k' Hk. destruct (K_eq_dec k k'); [congruence|reflexivity].
    + reflexivity.
Qed.

Lemma find_set_value_same (k : K) (v : V) (m : list (K * V)) :
  find k m <> None -> find k (set_value k v m) = Some v.
Proof.
  induction m as [|[k' v'] m IH]; simpl; [congruence|].
  destruct (K_eq_dec k' k) as [->|Hne]; simpl.
  - destruct (K_eq_dec k k); congruence.
  - destruct (K_eq_dec k' k); [congruence|exact IH].
Qed.

Lemma touch_head (k : K) (o : list K) : hd_error (touch k o) = Some k.
Proof. reflexivity. Qed.

(** Decide every key comparison of a concrete run. *)
Ltac decide_keys :=
  repeat (simpl; match goal with
                 | |- context [K_eq_dec ?x ?y] =>
                     destruct (K_eq_dec x y); try congruence
                 end).

(** C3 (recency update).  After [access_refresh] on a present key, or
    [access_refresh_mut_with_create] on a present key or on an absent key
    whose [create_fn] yields a value, the key is present and is the most
    recently used one (the head of the recency order).  Consequently, in a
    capacity-2 storage where A then B were inserted, refreshing A with
    [access_refresh] and then inserting a new key C evicts B and leaves C
    and A. *)
Theorem access_moves_to_front :
  (forall (R : Type) (s : storage) (k : K) (read_fn : option V -> R),
     find k (entries s) <> None ->
     let s' := snd (fst (access_refresh K_eq_dec s k read_fn)) in
     hd_error (order s') = Some k /\ find k (entries s') <> None) /\
  (forall (s : storage) (k : K) create_fn mutate_fn,
     find k (entries s) <> None \/ create_fn tt <> None ->
     let s' := fst (access_refresh_mut_with_create K_eq_dec s k create_fn mutate_fn) in
     hd_error (order s') = Some k /\ find k (entries s') <> None) /\
  (forall (a b c : K) (va vb vc : V) (read_fn : option V -> unit) (mutate_fn : V -> V),
     a <> b -> b <> c -> a <> c ->
     let ins s k v := fst (access_refresh_mut_with_create K_eq_dec s k
                             (fun _ => Some v) mutate_fn) in
     let s2 := ins (ins (new 2) a va) b vb in
     let s3 := snd (fst (access_refresh K_eq_dec s2 a read_fn)) in
     let s4 := ins s3 c vc in
     keys s4 = [c; a] /\ order s4 = [c; a]).
Proof.
  split; [|split].
  - intros R s k f Hin s'. unfold s'. rewrite state_access_refresh.
    destruct (find k (entries s)) eqn:Hf; [|congruence].
    split; [reflexivity|simpl; rewrite Hf; discriminate].
  - intros s k c m Hin s'. unfold s', access_refresh_mut_with_create, refresh_or_create.
    destruct (find k (entries s)) as [v|] eqn:Hf.
    + split; [reflexivity|]. simpl.
      apply find_some_in in Hf. rewrite <- (keys_set_value k (m v)) in Hf.
      intro E. apply find_none_iff in E. contradiction.
    + destruct (c tt) as [v|]; [|destruct Hin; congruence].
      split; [reflexivity|]. simpl. destruct (K_eq_dec k k); congruence.
  - intros a b c va vb vc f m Hab Hbc Hac.
    unfold access_refresh_mut_with_create, refresh_or_create, access_refresh,
      LRU.evict_lru, LRU.keys, LRU.touch, LRU.remove_from_order, LRU.remove_key, new.
    decide_keys; split; reflexivity.
Qed.

(** C4 (amended: what [access_refresh] returns).  [access_refresh]
    invokes [read_fn] exactly once, with the lookup result ([None] when the
    key is absent, [Some v] with the stored value when present), and
    returns the closure's own return value, not wrapped in [Some]. *)
Theorem access_refresh_calls_read_once {R : Type} (s : storage) (k : K)
    (read_fn : option V -> R) :
  let '(r, _, calls) := access_refresh K_eq_dec s k read_fn in
  calls = [CallRead (find k (entries s))] /\ r = read_fn (find k (entries s)).
Proof. unfold access_refresh. destruct (find k (entries s)); split; reflexivity. Qed.

(** C5 (absence is non-mutating).  On an absent key, [access_refresh]
    leaves the storage as it is (so [len] and the recency order are
    unchanged) and only calls [read_fn] with [None];
    [access_refresh_mut_with_create] whose [create_fn] yields nothing leaves
    the storage as it is and never calls [mutate_fn].  In particular a read
    of a never-inserted key on [new 3] gets [None] and [len] stays 0. *)
Theorem absent_key_no_side_effect :
  (forall (R : Type) (s : storage) (k : K) (read_fn : option V -> R),
     find k (entries s) = None ->
     access_refresh K_eq_dec s k read_fn = (read_fn None, s, [CallRead None])) /\
  (forall (s : storage) (k : K) create_fn mutate_fn,
     find k (entries s) = None -> create_fn tt = None ->
     access_refresh_mut_with_create K_eq_dec s k create_fn mutate_fn = (s, [CallCreate])) /\
  (forall (R : Type) (k : K) (read_fn : option V -> R),
     let '(r, s', calls) := access_refresh K_eq_dec (new 3) k read_fn in
     r = read_fn None /\ calls = [CallRead None] /\ len s' = 0).
Proof.
  split; [|split].
  - intros R s k f Hf. unfold access_refresh. rewrite Hf. reflexivity.
  - intros s k c m Hf Hc.
    unfold access_refresh_mut_with_create, refresh_or_create. rewrite Hf, Hc. reflexivity.
  - intros R k f. simpl. repeat split.
Qed.

(** C6 (no duplication).  In every reachable state each key has at most
    one entry in the mapping, every key of the mapping occurs exactly once
    in the recency order, and every key of the recency order has exactly
    one entry in the mapping. *)
Theorem reachable_no_duplicates (s : storage) :
  reachable K_eq_dec s ->
  NoDup (keys s) /\
  (forall k, In k (keys s) -> count_occ K_eq_dec (order s) k = 1) /\
  (forall k, In k (order s) -> count_occ K_eq_dec (keys s) k = 1).
Proof.
  intro Hr. destruct (reachable_inv s Hr) as [(Hk & Ho & Heq) _].
  split; [exact Hk|split].
  - intros k Hin. apply (NoDup_count_occ' K_eq_dec) with (x := k) in Ho;
      [exact Ho|apply Heq; exact Hin].
  - intros k Hin. apply (NoDup_count_occ' K_eq_dec) with (x := k) in Hk;
      [exact Hk|apply Heq; exact Hin].
Qed.

End Facts.
End LRUProofs.

(** * Concrete scenarios of the spec, keys and values as [nat] *)
Module Scenarios.
Import LRU.

(** C7 (scenario D).  On [new 1], two calls of
    [access_refresh_mut_with_create] on key [a] with a creation closure
    returning [Some v1] and an incrementing mutator leave a single entry
    for [a] holding [v1 + 2] and [len] equal to 1; the second call takes
    the present branch: no creation, one mutation of the existing value. *)
Theorem scenario_d_double_increment (a v1 : nat) :
  let '(s1, calls1) :=
    access_refresh_mut_with_create Nat.eq_dec (new 1) a (fun _ => Some v1) S in
  let '(s2, calls2) :=
    access_refresh_mut_with_create Nat.eq_dec s1 a (fun _ => Some v1) S in
  entries s2 = [(a, v1 + 2)] /\ order s2 = [a] /\ len s2 = 1 /\
  calls1 = [CallCreate; CallMutate v1] /\ calls2 = [CallMutate (S v1)].
Proof.
  unfold access_refresh_mut_with_create, refresh_or_create, touch, remove_from_order,
    set_value; simpl.
  destruct (Nat.eq_dec a a) as [_|]; [|congruence]. simpl.
  destruct (Nat.eq_dec a a) as [_|]; [|congruence].
  repeat split. f_equal. f_equal. f_equal. lia.
Qed.

End Scenarios.

(** * Two concurrent create-or-refresh calls on one absent key *)
Module ConcurrentProofs.
Import LRU LRUProofs.

Section Serial.
Context {K V : Type}.
Variable K_eq_dec : forall a b : K, {a = b} + {a <> b}.
Variable key : K.
Variable create_of : tid -> unit -> option V.
Variable mutate_of : tid -> V -> V.

Local Abbreviation storage := (LRUStorage (K := K) (V := V)).
Local Abbreviation config := (config (K := K) (V := V)).
Local Abbreviation sched_step := (sched_step K_eq_dec key create_of mutate_of).
Local Abbreviation sched_steps := (sched_steps K_eq_dec key create_of mutate_of).
Local Abbreviation serial_inv := (serial_inv K_eq_dec key create_of mutate_of).
Local Abbreviation serial_phase := (serial_phase K_eq_dec key create_of mutate_of).

Ltac pick_phase :=
  first [ left; repeat split; reflexivity
        | right; pick_phase
        | repeat split; reflexivity ].

Lemma serial_inv_step (s0 : storage) (c c' : config) :
  find K_eq_dec key (entries s0) = None ->
  sched_step c c' -> serial_inv s0 c -> serial_inv s0 c'.
Proof.
  intros Hf Hstep Hinv. destruct Hstep as [c c' t Ht].
  destruct c as [l p1 p2 st tr].
  destruct Hinv as [E|[a Hph]].
  - unfold init_config in E. injection E as -> -> -> -> ->.
    destruct t; simpl in Ht; injection Ht as <-; right;
      [exists T1|exists T2]; unfold LRU.serial_phase; simpl; pick_phase.
  - unfold LRU.serial_phase in Hph.
    destruct a; simpl in Hph;
      destruct Hph as [H|[H|[H|[H|[H|H]]]]];
      destruct H as (E1 & E2 & E3 & E4 & E5); subst;
      destruct t; simpl in Ht; try discriminate; injection Ht as <-; right;
      first [ exists T1; unfold LRU.serial_phase; simpl; try rewrite Hf; pick_phase
            | exists T2; unfold LRU.serial_phase; simpl; try rewrite Hf; pick_phase ].
Qed.

Lemma serial_inv_steps (s0 : storage) (c c' : config) :
  find K_eq_dec key (entries s0) = None ->
  sched_steps c c' -> serial_inv s0 c -> serial_inv s0 c'.
Proof.
  intros Hf Hsteps. induction Hsteps as [c|c1 c2 c3 H12 _ IH]; [tauto|].
  intro Hinv. apply IH. eapply serial_inv_step; eauto.
Qed.

(** C8 (race policy).  Two tasks call [access_refresh_mut_with_create]
    on the same key, absent from a reachable storage, both with a
    [create_fn] that yields a value.  In every interleaving the lock allows
    in which both calls complete, the task [a] that acquired the lock first
    created the entry and mutated it, the other task then took the present
    branch (no second creation) and mutated the already-created value, the
    final value is the two mutations applied in lock-acquisition order, and
    the key has exactly one entry. *)
Theorem concurrent_create_serialized (s0 : storage) (v1 v2 : V) (c : config) :
  reachable K_eq_dec s0 -> find K_eq_dec key (entries s0) = None ->
  create_of T1 tt = Some v1 -> create_of T2 tt = Some v2 ->
  sched_steps (init_config s0) c -> pc1 c = Done -> pc2 c = Done ->
  exists a va, create_of a tt = Some va /\
    trace c = [Acquire a; Call a CallCreate; Call a (CallMutate va);
               Acquire (other a); Call (other a) (CallMutate (mutate_of a va))] /\
    find K_eq_dec key (entries (store c)) = Some (mutate_of (other a) (mutate_of a va)) /\
    count_occ K_eq_dec (keys (store c)) key = 1 /\
    lock c = None.
Proof.
  intros Hr Hf Hc1 Hc2 Hsteps Hd1 Hd2.
  destruct (serial_inv_steps s0 _ c Hf Hsteps (or_introl eq_refl)) as [->|[a Hph]];
    [discriminate|].
  assert (Hdone : pc_of c a = Done /\ pc_of c (other a) = Done)
    by (destruct a; simpl; auto).
  destruct Hdone as [Hda Hdb].
  unfold LRU.serial_phase in Hph.
  destruct Hph as [H|[H|[H|[H|[H|(Hl & _ & _ & Hs & Htr)]]]]];
    try (destruct H as (_ & E1 & E2 & _); congruence).
  assert (Hca : exists va, create_of a tt = Some va) by (destruct a; eauto).
  destruct Hca as [va Hca].
  exists a, va. split; [exact Hca|].
  set (s1 := fst (refresh_or_create K_eq_dec s0 key None (create_of a) (mutate_of a))) in *.
  assert (Hs1 : s1 = fst (access_refresh_mut_with_create K_eq_dec s0 key
                            (create_of a) (mutate_of a)))
    by (unfold access_refresh_mut_with_create; rewrite Hf; reflexivity).
  assert (Hf1 : find K_eq_dec key (entries s1) = Some (mutate_of a va)).
  { unfold s1, refresh_or_create. rewrite Hca. simpl.
    destruct (K_eq_dec key key); congruence. }
  assert (Htr1 : snd (refresh_or_create K_eq_dec s0 key None (create_of a) (mutate_of a))
                 = [CallCreate; CallMutate va])
    by (unfold refresh_or_create; rewrite Hca; reflexivity).
  rewrite Hf1 in Hs, Htr. rewrite Htr1 in Htr.
  set (s2 := fst (refresh_or_create K_eq_dec s1 key (Some (mutate_of a va))
                    (create_of (other a)) (mutate_of (other a)))) in *.
  assert (Hs2 : s2 = fst (access_refresh_mut_with_create K_eq_dec s1 key
                            (create_of (other a)) (mutate_of (other a))))
    by (unfold access_refresh_mut_with_create; rewrite Hf1; reflexivity).
  assert (Hf2 : find K_eq_dec key (entries s2) = Some (mutate_of (other a) (mutate_of a va))).
  { unfold s2, refresh_or_create. simpl. apply find_set_value_same. congruence. }
  split; [rewrite Htr; reflexivity|].
  rewrite Hs. split; [exact Hf2|]. split; [|exact Hl].
  assert (Hwf : LRU.wf s2).
  { rewrite Hs2. apply wf_amwc. rewrite Hs1. apply wf_amwc.
    apply (reachable_inv K_eq_dec s0 Hr). }
  destruct Hwf as (Hk & _ & _).
  apply (NoDup_count_occ' K_eq_dec) with (x := key) in Hk; [exact Hk|].
  apply (find_some_in K_eq_dec key _ _ Hf2).
Qed.

End Serial.
End ConcurrentProofs.

(** * Properties of the request handlers *)
Module ServerProofs.
Import LRU LRUProofs Server.

Lemma digit_value_char (d : Z) :
  (0 <= d < 10)%Z -> digit_value (digit_char d) = Some d.
Proof.
  intro H.
  assert (d = 0 \/ d = 1 \/ d = 2 \/ d = 3 \/ d = 4 \/ d = 5 \/ d = 6 \/ d = 7 \/
          d = 8 \/ d = 9)%Z as Hd by lia.
  repeat destruct Hd as [->|Hd]; try (subst; reflexivity).
Qed.

Lemma parse_digits_cons (c : ascii) (s : string) (acc : Z) :
  parse_digits (String c s) acc =
  match digit_value c with
  | None => None
  | Some d =>
      if (acc * 10 <=? u32_max)%Z then
        if (acc * 10 + d <=? u32_max)%Z then parse_digits s (acc * 10 + d) else None
      else None
  end.
Proof. reflexivity. Qed.

Lemma parse_dec_aux (f : nat) (n : Z) (acc : string) :
  (0 <= n <= u32_max)%Z -> (n < 10 ^ Z.of_nat f)%Z ->
  parse_digits (dec_aux f n acc) 0 = parse_digits acc n.
Proof.
  revert n acc. induction f as [|f IH]; intros n acc Hn Hf.
  - simpl in Hf. assert (n = 0)%Z as -> by lia. reflexivity.
  - simpl. assert (Hm : (0 <= n mod 10 < 10)%Z) by (apply Z.mod_pos_bound; lia).
    destruct (n <? 10)%Z eqn:Hlt.
    + apply Z.ltb_lt in Hlt. rewrite parse_digits_cons, digit_value_char by exact Hm.
      rewrite Z.mod_small by lia. rewrite Z.mul_0_l, Z.add_0_l.
      assert (E0 : (0 <=? u32_max)%Z = true) by reflexivity. rewrite E0.
      assert (E : (n <=? u32_max)%Z = true) by (apply Z.leb_le; lia). rewrite E.
      reflexivity.
    + apply Z.ltb_ge in Hlt. rewrite IH.
      * rewrite parse_digits_cons, digit_value_char by exact Hm.
        pose proof (Z.div_mod n 10 ltac:(lia)) as Edm.
        assert (E1 : (n / 10 * 10 <=? u32_max)%Z = true) by (apply Z.leb_le; lia).
        rewrite E1.
        assert (E2 : (n / 10 * 10 + n mod 10)%Z = n) by lia. rewrite E2.
        assert (E3 : (n <=? u32_max)%Z = true) by (apply Z.leb_le; lia). rewrite E3.
        reflexivity.
      * split; [apply Z.div_pos; lia|]. apply Z.le_trans with n; [|lia].
        apply Z.div_le_upper_bound; lia.
      * rewrite Nat2Z.inj_succ, Z.pow_succ_r in Hf by lia.
        apply Z.div_lt_upper_bound; lia.
Qed.

Lemma dec_aux_leading (f : nat) (n : Z) (acc : string) :
  (0 < n)%Z -> (n < 10 ^ Z.of_nat f)%Z ->
  exists d rest, dec_aux f n acc = String (digit_char d) rest /\ (1 <= d <= 9)%Z.
Proof.
  revert n acc. induction f as [|f IH]; intros n acc Hn Hf.
  - simpl in Hf. lia.
  - simpl. destruct (n <? 10)%Z eqn:Hlt.
    + apply Z.ltb_lt in Hlt. exists (n mod 10)%Z, acc. split; [reflexivity|].
      rewrite Z.mod_small; lia.
    + apply Z.ltb_ge in Hlt. apply IH.
      * apply Z.div_str_pos; lia.
      * rewrite Nat2Z.inj_succ, Z.pow_succ_r in Hf by lia.
        apply Z.div_lt_upper_bound; lia.
Qed.

(** The string [to_string n] written by [user_id]: its digits spell [n]
    and it has no leading zero. *)
Lemma to_string_u32 (n : Z) :
  (0 <= n <= u32_max)%Z ->
  parse_digits (to_string n) 0 = Some n /\
  (exists d rest, to_string n = String d rest /\ (d = "0"%char -> rest = EmptyString)) /\
  parse_u32 (to_string n) = Some n.
Proof.
  intro Hn. unfold u32_max in Hn.
  assert (Hp : parse_digits (to_string n) 0 = Some n).
  { unfold to_string. rewrite parse_dec_aux; [reflexivity|unfold u32_max; lia|].
    simpl. lia. }
  split; [exact Hp|].
  destruct (Z.eq_dec n 0) as [->|Hne].
  - split; [|reflexivity]. exists "0"%char, EmptyString. split; reflexivity.
  - destruct (dec_aux_leading 20 n EmptyString ltac:(lia) ltac:(simpl; lia))
      as (d & rest & E & Hd).
    fold (to_string n) in E. split.
    + exists (digit_char d), rest. split; [exact E|].
      intro Hz. exfalso.
      assert (d = 1 \/ d = 2 \/ d = 3 \/ d = 4 \/ d = 5 \/ d = 6 \/ d = 7 \/
              d = 8 \/ d = 9)%Z as Hd' by lia.
      repeat destruct Hd' as [->|Hd']; try (subst; discriminate).
    + rewrite <- Hp, E.
      assert (d = 1 \/ d = 2 \/ d = 3 \/ d = 4 \/ d = 5 \/ d = 6 \/ d = 7 \/
              d = 8 \/ d = 9)%Z as Hd' by lia.
      repeat destruct Hd' as [->|Hd']; try (subst; reflexivity).
Qed.


(** C9 ([user_id]).  When the request carries a [user_id] cookie whose
    value parses as a [u32], [user_id] returns the parsed value and adds no
    cookie.  Otherwise (no such cookie, or a value that does not parse) it
    returns the random [u32] it drew and adds one [user_id] cookie whose
    value is that number in decimal: digits only, no leading zero, and it
    parses back to the same number. *)
Theorem user_id_cookie_or_fresh (cookie_jar : CookieJar) (rnd : Z) :
  (0 <= rnd <= u32_max)%Z ->
  (forall c n, jar_get "user_id" cookie_jar = Some c -> parse_u32 (cookie_value c) = Some n ->
     user_id cookie_jar rnd = (n, cookie_jar)) /\
  ((jar_get "user_id" cookie_jar = None \/
    exists c, jar_get "user_id" cookie_jar = Some c /\ parse_u32 (cookie_value c) = None) ->
   let '(uid, jar') := user_id cookie_jar rnd in
   uid = rnd /\ jar_cookies jar' = jar_cookies cookie_jar /\
   jar_added jar' = jar_added cookie_jar ++ [mkCookie "user_id" (to_string rnd)] /\
   parse_digits (to_string rnd) 0 = Some rnd /\
   (exists d rest, to_string rnd = String d rest /\ (d = "0"%char -> rest = EmptyString)) /\
   parse_u32 (to_string rnd) = Some rnd).
Proof.
  intro Hr. destruct (to_string_u32 rnd Hr) as (H1 & H2 & H3). split.
  - intros c n Hc Hn. unfold user_id. rewrite Hc. simpl. rewrite Hn. reflexivity.
  - intro Habs.
    assert (E : user_id cookie_jar rnd =
                (rnd, jar_add (mkCookie "user_id" (to_string rnd)) cookie_jar)).
    { unfold user_id.
      destruct Habs as [Hn|(c & Hc & Hn)]; [rewrite Hn|rewrite Hc; simpl; rewrite Hn];
        reflexivity. }
    rewrite E. repeat split; auto.
Qed.

(** C10 ([index]).  Whatever the cookies, the random draw and the
    storage, after [GET /] the storage holds an entry for the caller's user
    id: the entry it already had, or a fresh [Tetris::new(10, 20)] (the
    no-op mutator leaves it as it is); the response body is the decimal
    string of [len()] taken after that call, and the cookie jar is the one
    [user_id] left. *)
Theorem index_entry_present {Tetris : Type} (tetris_new : nat -> nat -> Tetris)
    (cookie_jar : CookieJar) (rnd : Z) (tetrises : Tetrises (Tetris := Tetris)) :
  let '(body, jar', t') := index tetris_new cookie_jar rnd tetrises in
  let uid := fst (user_id cookie_jar rnd) in
  find Z.eq_dec uid (entries t') =
    Some (match find Z.eq_dec uid (entries tetrises) with
          | Some t => t
          | None => tetris_new 10 20
          end) /\
  body = to_string (Z.of_nat (len t')) /\
  jar' = snd (user_id cookie_jar rnd).
Proof.
  unfold index. destruct (user_id cookie_jar rnd) as [uid jar'] eqn:Hu. simpl.
  unfold access_refresh_mut_with_create, refresh_or_create.
  destruct (find Z.eq_dec uid (entries tetrises)) as [t|] eqn:Hf.
  - simpl. repeat split. apply find_set_value_same. congruence.
  - simpl. repeat split. destruct (Z.eq_dec uid uid); congruence.
Qed.

(** C4 (counterexample).  [game_state]'s closure maps an absent user to
    [None]; [access_refresh] returns that value itself, so on a key never
    inserted its result is not of the form [Some _], and [game_state]
    answers 404. *)
Lemma access_refresh_absent_returns_closure_value :
  let read := game_state_read (Tetris := nat) (fun _ => "{}"%string) in
  ~ (exists r, fst (fst (access_refresh Z.eq_dec (new 1000) 7%Z read)) = Some r) /\
  fst (fst (game_state (Tetris := nat) (fun _ => "{}"%string)
              (mkJar [mkCookie "user_id" "7"] []) 0 (new 1000))) =
    inr "User not found"%string.
Proof.
  split.
  - intros [r E]. discriminate E.
  - reflexivity.
Qed.

Lemma digit_value_range (c : ascii) (d : Z) :
  digit_value c = Some d -> (0 <= d <= 9)%Z.
Proof.
  unfold digit_value. destruct ((48 <=? nat_of_ascii c) && (nat_of_ascii c <=? 57)) eqn:E;
    [|discriminate].
  apply andb_prop in E as [E1 E2]. apply Nat.leb_le in E1, E2.
  intro H; injection H as <-. lia.
Qed.

Lemma parse_digits_range (s : string) (acc n : Z) :
  (0 <= acc <= u32_max)%Z -> parse_digits s acc = Some n -> (0 <= n <= u32_max)%Z.
Proof.
  revert acc. induction s as [|c s IH]; intros acc Hacc H.
  - injection H as <-. exact Hacc.
  - rewrite parse_digits_cons in H.
    destruct (digit_value c) as [d|] eqn:Hd; [|discriminate].
    apply digit_value_range in Hd.
    destruct (acc * 10 <=? u32_max)%Z; [|discriminate].
    destruct (acc * 10 + d <=? u32_max)%Z eqn:E; [|discriminate].
    apply Z.leb_le in E. apply (IH (acc * 10 + d)%Z); [lia|exact H].
Qed.

Lemma parse_u32_range (s : string) (n : Z) :
  parse_u32 s = Some n -> (0 <= n <= u32_max)%Z.
Proof.
  intro H. assert (H0 : (0 <= 0 <= u32_max)%Z) by (unfold u32_max; lia).
  unfold parse_u32 in H.
  destruct s as [|c s]; [discriminate|].
  destruct c as [[] [] [] [] [] [] [] []]; try (apply (parse_digits_range _ 0 n H0 H));
    destruct s; try discriminate; apply (parse_digits_range _ 0 n H0 H).
Qed.

(** [user_id] only ever yields a [u32]: a parsed cookie value is in range,
    and so is the random draw. *)
Theorem user_id_is_u32 (cookie_jar : CookieJar) (rnd : Z) :
  (0 <= rnd <= u32_max)%Z -> (0 <= fst (user_id cookie_jar rnd) <= u32_max)%Z.
Proof.
  intro Hr. unfold user_id.
  destruct (jar_get "user_id" cookie_jar) as [c|]; simpl; [|exact Hr].
  destruct (parse_u32 (cookie_value c)) as [n|] eqn:Hp; simpl; [|exact Hr].
  apply (parse_u32_range _ _ Hp).
Qed.

(** The cookies a browser sends with its next request: those the response
    added, then those it already had. *)
Lemma user_id_next_request (cookie_jar : CookieJar) (rnd rnd2 : Z) :
  (0 <= rnd <= u32_max)%Z -> jar_added cookie_jar = [] ->
  let '(uid, jar') := user_id cookie_jar rnd in
  let next := mkJar (jar_added jar' ++ jar_cookies cookie_jar) [] in
  user_id next rnd2 = (uid, next).
Proof.
  intros Hr Hadd. destruct (to_string_u32 rnd Hr) as (_ & _ & Hround).
  unfold user_id at 1.
  destruct (jar_get "user_id" cookie_jar) as [c|] eqn:Hg; simpl.
  - destruct (parse_u32 (cookie_value c)) as [n|] eqn:Hp; simpl.
    + rewrite Hadd. simpl. unfold user_id, jar_get. simpl.
      unfold jar_get in Hg. rewrite Hg. simpl. rewrite Hp. reflexivity.
    + rewrite Hadd. unfold user_id, jar_get. simpl. rewrite Hround. reflexivity.
  - rewrite Hadd. unfold user_id, jar_get. simpl. rewrite Hround. reflexivity.
Qed.

(** A user id, once decided, is kept: when the next request carries the
    cookies of the response (before the older ones), [user_id] returns the
    same id and adds no cookie. *)
Theorem user_id_stable (cookie_jar : CookieJar) (rnd rnd2 : Z) :
  (0 <= rnd <= u32_max)%Z -> jar_added cookie_jar = [] ->
  let '(uid, jar') := user_id cookie_jar rnd in
  let next := mkJar (jar_added jar' ++ jar_cookies cookie_jar) [] in
  user_id next rnd2 = (uid, next).
Proof. apply user_id_next_request. Qed.

Lemma game_state_shape {Tetris : Type} (tetris_json : Tetris -> string)
    (cookie_jar : CookieJar) (rnd : Z) (tetrises : Tetrises (Tetris := Tetris)) :
  let uid := fst (user_id cookie_jar rnd) in
  game_state tetris_json cookie_jar rnd tetrises =
  (match find Z.eq_dec uid (entries tetrises) with
   | Some v => inl (tetris_json v)
   | None => inr "User not found"%string
   end,
   snd (user_id cookie_jar rnd),
   snd (fst (access_refresh Z.eq_dec tetrises uid (game_state_read tetris_json)))).
Proof.
  unfold game_state. destruct (user_id cookie_jar rnd) as [uid jar'] eqn:Hu. simpl.
  unfold access_refresh. destruct (find Z.eq_dec uid (entries tetrises)); reflexivity.
Qed.

(** [GET /game_state] answers with the JSON of the caller's game when the
    storage has one and with 404 ["User not found"] otherwise; it never
    creates, removes or changes an entry, and it moves a found user to the
    most-recently-used position. *)
Theorem game_state_lookup {Tetris : Type} (tetris_json : Tetris -> string)
    (cookie_jar : CookieJar) (rnd : Z) (tetrises : Tetrises (Tetris := Tetris)) :
  let '(r, jar', t') := game_state tetris_json cookie_jar rnd tetrises in
  let uid := fst (user_id cookie_jar rnd) in
  r = match find Z.eq_dec uid (entries tetrises) with
      | Some v => inl (tetris_json v)
      | None => inr "User not found"%string
      end /\
  jar' = snd (user_id cookie_jar rnd) /\
  entries t' = entries tetrises /\ capacity t' = capacity tetrises /\
  order t' = match find Z.eq_dec uid (entries tetrises) with
             | Some _ => touch Z.eq_dec uid (order tetrises)
             | None => order tetrises
             end.
Proof.
  rewrite game_state_shape. simpl. rewrite state_access_refresh.
  destruct (find Z.eq_dec (fst (user_id cookie_jar rnd)) (entries tetrises));
    repeat split.
Qed.

Lemma set_value_absent {K V : Type} (K_eq_dec : forall a b : K, {a = b} + {a <> b})
    (k : K) (v : V) (m : list (K * V)) :
  ~ In k (map fst m) -> set_value K_eq_dec k v m = m.
Proof.
  induction m as [|[k' v'] m IH]; simpl; intro Hn; [reflexivity|].
  destruct (K_eq_dec k' k) as [->|]; [tauto|]. f_equal. apply IH; tauto.
Qed.

Lemma set_value_found {K V : Type} (K_eq_dec : forall a b : K, {a = b} + {a <> b})
    (k : K) (v : V) (m : list (K * V)) :
  NoDup (map fst m) -> find K_eq_dec k m = Some v -> set_value K_eq_dec k v m = m.
Proof.
  induction m as [|[k' v'] m IH]; simpl; intros Hnd Hf; [discriminate|].
  inversion Hnd as [|? ? Hk Hnd']; subst.
  destruct (K_eq_dec k' k) as [->|Hne].
  - injection Hf as ->. f_equal. apply set_value_absent; exact Hk.
  - f_equal. apply IH; auto.
Qed.

Lemma index_shape {Tetris : Type} (tetris_new : nat -> nat -> Tetris)
    (cookie_jar : CookieJar) (rnd : Z) (tetrises : Tetrises (Tetris := Tetris)) :
  let uid := fst (user_id cookie_jar rnd) in
  let t' := fst (access_refresh_mut_with_create Z.eq_dec tetrises uid
                   (fun _ => Some (tetris_new 10 20)) (fun t => t)) in
  index tetris_new cookie_jar rnd tetrises =
  (to_string (Z.of_nat (len t')), snd (user_id cookie_jar rnd), t').
Proof.
  unfold index. destruct (user_id cookie_jar rnd) as [uid jar'].
  destruct (access_refresh_mut_with_create _ _ _ _ _); reflexivity.
Qed.

Lemma index_find_uid {Tetris : Type} (tetris_new : nat -> nat -> Tetris)
    (tetrises : Tetrises (Tetris := Tetris)) (uid : Z) :
  find Z.eq_dec uid (entries (fst (access_refresh_mut_with_create Z.eq_dec tetrises uid
                                     (fun _ => Some (tetris_new 10 20)) (fun t => t)))) =
  Some (match find Z.eq_dec uid (entries tetrises) with
        | Some t => t
        | None => tetris_new 10 20
        end).
Proof.
  unfold access_refresh_mut_with_create, refresh_or_create.
  destruct (find Z.eq_dec uid (entries tetrises)) as [t|] eqn:Hf; simpl.
  - apply find_set_value_same. congruence.
  - destruct (Z.eq_dec uid uid); congruence.
Qed.

(** Revisiting [GET /] does not reset a game: when the caller already has
    an entry in a reachable storage, [index] leaves every entry and its
    value as they were (the mutator is a no-op), so [len] and the response
    body do not change; only the caller becomes most recently used. *)
Theorem index_revisit_keeps_entries {Tetris : Type} (tetris_new : nat -> nat -> Tetris)
    (cookie_jar : CookieJar) (rnd : Z) (tetrises : Tetrises (Tetris := Tetris)) (v : Tetris) :
  reachable Z.eq_dec tetrises ->
  find Z.eq_dec (fst (user_id cookie_jar rnd)) (entries tetrises) = Some v ->
  let '(body, _, t') := index tetris_new cookie_jar rnd tetrises in
  entries t' = entries tetrises /\ len t' = len tetrises /\
  body = to_string (Z.of_nat (len tetrises)) /\
  hd_error (order t') = Some (fst (user_id cookie_jar rnd)).
Proof.
  intros Hr Hf. rewrite index_shape.
  destruct (reachable_inv Z.eq_dec tetrises Hr) as [(Hnd & _ & _) _].
  assert (E : entries (fst (access_refresh_mut_with_create Z.eq_dec tetrises
                 (fst (user_id cookie_jar rnd)) (fun _ => Some (tetris_new 10 20))
                 (fun t => t))) = entries tetrises).
  { unfold access_refresh_mut_with_create, refresh_or_create. rewrite Hf. simpl.
    apply set_value_found; assumption. }
  unfold len. rewrite E. repeat split.
  unfold access_refresh_mut_with_create, refresh_or_create. rewrite Hf. reflexivity.
Qed.

(** After [GET /], a [GET /game_state] whose request carries the cookies
    the first response set finds the caller's game: it answers with the
    JSON of the game the caller already had, or of the fresh
    [Tetris::new(10, 20)]. *)
Theorem index_then_game_state {Tetris : Type} (tetris_new : nat -> nat -> Tetris)
    (tetris_json : Tetris -> string) (cookie_jar : CookieJar) (rnd rnd2 : Z)
    (tetrises : Tetrises (Tetris := Tetris)) :
  (0 <= rnd <= u32_max)%Z -> jar_added cookie_jar = [] ->
  let '(_, jar', t') := index tetris_new cookie_jar rnd tetrises in
  let next := mkJar (jar_added jar' ++ jar_cookies cookie_jar) [] in
  fst (fst (game_state tetris_json next rnd2 t')) =
  inl (tetris_json (match find Z.eq_dec (fst (user_id cookie_jar rnd)) (entries tetrises) with
                    | Some t => t
                    | None => tetris_new 10 20
                    end)).
Proof.
  intros Hr Hadd. rewrite index_shape. simpl.
  pose proof (user_id_next_request cookie_jar rnd rnd2 Hr Hadd) as Hnext.
  destruct (user_id cookie_jar rnd) as [uid jar'] eqn:Hu. simpl in *.
  rewrite game_state_shape. simpl. rewrite Hnext. simpl.
  rewrite index_find_uid. reflexivity.
Qed.

Lemma handle_invariant {Tetris : Type} (tetris_new : nat -> nat -> Tetris)
    (tetris_json : Tetris -> string) (tetrises : Tetrises (Tetris := Tetris)) (r : request) :
  reachable Z.eq_dec tetrises -> 0 < capacity tetrises ->
  let '(resp, t') := handle tetris_new tetris_json tetrises r in
  reachable Z.eq_dec t' /\ capacity t' = capacity tetrises /\
  match resp with
  | IndexBody b => exists n, b = to_string (Z.of_nat n) /\ 1 <= n <= capacity tetrises
  | GameStateBody _ => True
  end.
Proof.
  intros Hr Hc. destruct r as [j n|j n]; simpl.
  - rewrite index_shape. simpl.
    set (uid := fst (user_id j n)).
    set (o := OpCreate uid (fun _ : unit => Some (tetris_new 10 20)) (fun t : Tetris => t)).
    change (fst (access_refresh_mut_with_create Z.eq_dec tetrises uid
                   (fun _ => Some (tetris_new 10 20)) (fun t => t)))
      with (step Z.eq_dec tetrises o).
    assert (Hr' : reachable Z.eq_dec (step Z.eq_dec tetrises o)) by (constructor; exact Hr).
    split; [exact Hr'|]. split; [apply capacity_step|].
    exists (len (step Z.eq_dec tetrises o)). split; [reflexivity|]. split.
    + pose proof (index_find_uid tetris_new tetrises uid) as Hf.
      unfold len. destruct (entries (step Z.eq_dec tetrises o)) eqn:E;
        [simpl in Hf; change (step Z.eq_dec tetrises o) with
           (fst (access_refresh_mut_with_create Z.eq_dec tetrises uid
                   (fun _ => Some (tetris_new 10 20)) (fun t => t))) in E;
         rewrite E in Hf; discriminate|simpl; lia].
    + destruct (reachable_inv Z.eq_dec _ Hr') as [_ Hb].
      rewrite capacity_step in Hb. apply Hb; exact Hc.
  - rewrite game_state_shape. simpl.
    set (uid := fst (user_id j n)).
    assert (E : snd (fst (access_refresh Z.eq_dec tetrises uid (game_state_read tetris_json)))
                = step Z.eq_dec tetrises (OpRead uid (fun _ => tt))).
    { simpl. rewrite !state_access_refresh. reflexivity. }
    rewrite E. split; [constructor; exact Hr|]. split; [apply capacity_step|exact I].
Qed.

Lemma serve_invariant_gen {Tetris : Type} (tetris_new : nat -> nat -> Tetris)
    (tetris_json : Tetris -> string) (reqs : list request) :
  forall tetrises : Tetrises (Tetris := Tetris),
  reachable Z.eq_dec tetrises -> 0 < capacity tetrises ->
  let '(resps, t') := serve tetris_new tetris_json tetrises reqs in
  reachable Z.eq_dec t' /\ capacity t' = capacity tetrises /\
  Forall (fun resp => match resp with
                      | IndexBody b => exists n, b = to_string (Z.of_nat n) /\
                                                 1 <= n <= capacity tetrises
                      | GameStateBody _ => True
                      end) resps.
Proof.
  induction reqs as [|r reqs IH]; intros t Hr Hc; simpl.
  - split; [exact Hr|split; [reflexivity|constructor]].
  - pose proof (handle_invariant tetris_new tetris_json t r Hr Hc) as Hh.
    destruct (handle tetris_new tetris_json t r) as [resp t1].
    destruct Hh as (Hr1 & Hc1 & Hresp).
    specialize (IH t1 Hr1 ltac:(lia)).
    destruct (serve tetris_new tetris_json t1 reqs) as [resps t2].
    destruct IH as (Hr2 & Hc2 & Hall).
    split; [exact Hr2|split; [congruence|]].
    constructor; [exact Hresp|]. rewrite Hc1 in Hall. exact Hall.
Qed.

(** The server's storage, [Tetrises::new(1000)] shared by any sequence of
    [GET /] and [GET /game_state] requests, never holds more than 1000
    games nor two entries for one user id, and every [GET /] body is the
    decimal of a count between 1 and 1000. *)
Theorem serve_from_new_1000 {Tetris : Type} (tetris_new : nat -> nat -> Tetris)
    (tetris_json : Tetris -> string) (reqs : list request) :
  let '(resps, t') := serve tetris_new tetris_json (new 1000) reqs in
  len t' <= 1000 /\ NoDup (keys t') /\
  Forall (fun resp => match resp with
                      | IndexBody b => exists n, b = to_string (Z.of_nat n) /\ 1 <= n <= 1000
                      | GameStateBody _ => True
                      end) resps.
Proof.
  pose proof (serve_invariant_gen tetris_new tetris_json reqs (new 1000)
                (reachable_new Z.eq_dec 1000) ltac:(simpl; lia)) as H.
  destruct (serve tetris_new tetris_json (new 1000) reqs) as [resps t'].
  destruct H as (Hr & Hc & Hall).
  destruct (reachable_inv Z.eq_dec t' Hr) as [(Hnd & _ & _) Hb].
  simpl in Hc. rewrite Hc in Hb.
  split; [apply Hb; lia|split; [exact Hnd|exact Hall]].
Qed.

Lemma list_ascii_append (a b : string) :
  list_ascii_of_string (a ++ b)%string = list_ascii_of_string a ++ list_ascii_of_string b.
Proof. induction a as [|c a IH]; simpl; [reflexivity|]. rewrite IH. reflexivity. Qed.

Lemma last_dot_split_none (s : string) :
  ~ In "."%char (list_ascii_of_string s) -> last_dot_split s = None.
Proof.
  induction s as [|c s IH]; simpl; intro Hn; [reflexivity|].
  rewrite IH by tauto. destruct (Ascii.eqb_spec c "."); [subst; tauto|reflexivity].
Qed.

Lemma last_dot_split_last (stem ext : string) :
  ~ In "."%char (list_ascii_of_string ext) ->
  last_dot_split (stem ++ "." ++ ext)%string = Some (stem, ext).
Proof.
  intro Hn. induction stem as [|c stem IH]; simpl in *.
  - rewrite last_dot_split_none by exact Hn. reflexivity.
  - rewrite IH. reflexivity.
Qed.

Lemma to_str_ascii (s : string) :
  Forall (fun c => nat_of_ascii c < 128) (list_ascii_of_string s) -> to_str s = Some s.
Proof.
  intro H. unfold to_str.
  assert (E : valid_utf8 (map nat_of_ascii (list_ascii_of_string s)) = true).
  { induction H as [|c l Hc _ IH]; simpl; [reflexivity|].
    apply Nat.ltb_lt in Hc. rewrite Hc. exact IH. }
  rewrite E. reflexivity.
Qed.

Lemma file_name_not_dotdot (p name : string) :
  file_name p = Some name -> name <> ".."%string.
Proof.
  unfold file_name. destruct (rev (components p)) as [|n ns]; [discriminate|].
  destruct (String.eqb_spec n ".."); [discriminate|]. intro H; injection H as <-; exact n0.
Qed.

Lemma ascii_app_inv (a b : string) :
  Forall (fun c => nat_of_ascii c < 128) (list_ascii_of_string (a ++ b)%string) ->
  Forall (fun c => nat_of_ascii c < 128) (list_ascii_of_string a).
Proof. rewrite list_ascii_append. intro H. apply Forall_app in H. tauto. Qed.

(** The database file of [init] is named after the executable: with an
    ASCII file name, its last extension is replaced by [.db] ([server.exe]
    gives [server.db], [a.tar.gz] gives [a.tar.db]); a name without a dot,
    or whose only dot leads it ([.hidden]), gets [.db] appended; a path
    without a file name gives [gameserver.db]. *)
Theorem db_name_from_exe (exe_name : string) :
  (file_name exe_name = None -> db_name exe_name = "gameserver.db"%string) /\
  (forall name, file_name exe_name = Some name ->
     Forall (fun c => nat_of_ascii c < 128) (list_ascii_of_string name) ->
     (~ In "."%char (list_ascii_of_string name) ->
        db_name exe_name = (name ++ ".db")%string) /\
     (forall stem ext, name = (stem ++ "." ++ ext)%string -> stem <> ""%string ->
        ~ In "."%char (list_ascii_of_string ext) ->
        db_name exe_name = (stem ++ ".db")%string) /\
     (forall ext, name = ("." ++ ext)%string -> ~ In "."%char (list_ascii_of_string ext) ->
        db_name exe_name = (name ++ ".db")%string)).
Proof.
  split.
  - intro H. unfold db_name, file_stem. rewrite H. reflexivity.
  - intros name Hf Hascii. pose proof (file_name_not_dotdot _ _ Hf) as Hdd.
    unfold db_name, file_stem. rewrite Hf. unfold rsplit_file_at_dot.
    destruct (String.eqb_spec name ".."); [contradiction|].
    split; [|split].
    + intro Hn. rewrite last_dot_split_none by exact Hn.
      rewrite to_str_ascii by exact Hascii. reflexivity.
    + intros stem ext -> Hstem Hn. rewrite last_dot_split_last by exact Hn.
      destruct (String.eqb_spec stem ""); [contradiction|].
      rewrite to_str_ascii by exact (ascii_app_inv _ _ Hascii). reflexivity.
    + intros ext -> Hn.
      pose proof (last_dot_split_last "" ext Hn) as E. simpl in E |- *. rewrite E. simpl.
      rewrite to_str_ascii by exact Hascii. reflexivity.
Qed.

Lemma str_app_assoc (a b c : string) : ((a ++ b) ++ c = a ++ (b ++ c))%string.
Proof. induction a as [|x a IH]; simpl; [reflexivity|]. rewrite IH. reflexivity. Qed.

Lemma split_on_no_sep (sep : ascii) (a : string) :
  ~ In sep (list_ascii_of_string a) -> split_on sep a = [a].
Proof.
  induction a as [|c a IH]; simpl; intro Hn; [reflexivity|].
  rewrite IH by tauto. destruct (Ascii.eqb_spec c sep); [subst; tauto|reflexivity].
Qed.

Lemma split_on_app_sep (sep : ascii) (a b : string) :
  ~ In sep (list_ascii_of_string a) ->
  split_on sep (a ++ String sep b)%string = a :: split_on sep b.
Proof.
  induction a as [|c a IH]; simpl; intro Hn.
  - rewrite Ascii.eqb_refl. reflexivity.
  - rewrite IH by tauto. destruct (Ascii.eqb_spec c sep); [subst; tauto|reflexivity].
Qed.

Lemma normal_segment_spec (seg : string) :
  normal_segment seg = true ->
  exists c r, seg = String c r /\ c <> "."%char /\ ~ In "/"%char (list_ascii_of_string seg).
Proof.
  destruct seg as [|c r]; simpl; [discriminate|].
  intro H. apply andb_true_iff in H as [H1 H2].
  exists c, r. split; [reflexivity|]. split.
  - intro E. subst. discriminate.
  - apply andb_true_iff in H2 as [H2 H3]. rewrite forallb_forall in H3.
    intros [E|Hin].
    + subst. discriminate.
    + specialize (H3 _ Hin). rewrite Ascii.eqb_refl in H3. discriminate.
Qed.

Lemma split_on_concat (segs : list string) :
  segs <> [] -> Forall (fun s => ~ In "/"%char (list_ascii_of_string s)) segs ->
  split_on "/" (String.concat "/" segs) = segs.
Proof.
  induction segs as [|s segs IH]; intros Hne Hall; [contradiction|].
  inversion Hall as [|? ? Hs Hrest]; subst.
  destruct segs as [|t ts].
  - simpl. apply split_on_no_sep. exact Hs.
  - change (String.concat "/" (s :: t :: ts)) with (s ++ String "/" (String.concat "/" (t :: ts)))%string.
    rewrite split_on_app_sep by exact Hs. rewrite IH by (discriminate || exact Hrest). reflexivity.
Qed.

Lemma segments_no_sep (segs : list string) :
  forallb normal_segment segs = true ->
  Forall (fun s => ~ In "/"%char (list_ascii_of_string s)) segs.
Proof.
  intro H. apply Forall_forall. intros s Hin. rewrite forallb_forall in H.
  destruct (normal_segment_spec s (H s Hin)) as (c & r & _ & _ & Hn). exact Hn.
Qed.

Lemma components_segments (segs : list string) :
  forallb normal_segment segs = true -> components (String.concat "/" segs) = segs.
Proof.
  intro H. destruct segs as [|s0 segs0]; [reflexivity|].
  unfold components. rewrite split_on_concat by (discriminate || apply segments_no_sep, H).
  rewrite forallb_forall in H. apply forallb_filter_id, forallb_forall.
  intros s Hin. destruct (normal_segment_spec s (H s Hin)) as (c & r & -> & Hc & _).
  simpl. destruct (Ascii.eqb_spec c "."); [contradiction|]. reflexivity.
Qed.

Lemma push_path_rel (buf r : string) (c : ascii) :
  c <> "/"%char ->
  push_path buf (String c r) =
  match rev (list_ascii_of_string buf) with
  | [] => String c r
  | "/"%char :: _ => (buf ++ String c r)%string
  | _ => (buf ++ "/" ++ String c r)%string
  end.
Proof.
  intro Hc. unfold push_path.
  destruct c as [[] [] [] [] [] [] [] []]; try reflexivity; contradiction Hc; reflexivity.
Qed.

Lemma push_path_after (buf seg : string) (c : ascii) (l : list ascii) :
  normal_segment seg = true -> rev (list_ascii_of_string buf) = c :: l -> c <> "/"%char ->
  push_path buf seg = (buf ++ "/" ++ seg)%string.
Proof.
  intros Hs Hb Hc. destruct (normal_segment_spec seg Hs) as (c' & r & -> & _ & Hn).
  rewrite push_path_rel by (intro E; subst; apply Hn; left; reflexivity).
  rewrite Hb. clear Hb Hs Hn.
  destruct c as [[] [] [] [] [] [] [] []]; try reflexivity; contradiction Hc; reflexivity.
Qed.

Lemma ends_in_segment (a seg : string) :
  normal_segment seg = true ->
  exists c l, rev (list_ascii_of_string (a ++ seg)) = c :: l /\ c <> "/"%char.
Proof.
  intro Hs. destruct (normal_segment_spec seg Hs) as (c0 & r & Eseg & _ & Hn).
  rewrite list_ascii_append, rev_app_distr.
  destruct (rev (list_ascii_of_string seg)) as [|c l] eqn:E.
  - rewrite Eseg in E. simpl in E. apply app_eq_nil in E as [_ E]. discriminate.
  - exists c, (l ++ rev (list_ascii_of_string a)). split; [reflexivity|].
    intro Ec. subst c. apply Hn. apply in_rev. rewrite E. left. reflexivity.
Qed.

Lemma concat_cons (x : string) (xs : list string) :
  xs <> [] -> String.concat "/" (x :: xs) = (x ++ "/" ++ String.concat "/" xs)%string.
Proof. destruct xs; [contradiction|reflexivity]. Qed.

Lemma concat_snoc (init : list string) (l : string) :
  String.concat "/" (init ++ [l]) =
  match init with [] => l | _ => (String.concat "/" init ++ "/" ++ l)%string end.
Proof.
  induction init as [|s init IH]; [reflexivity|].
  destruct init as [|t ts]; [reflexivity|].
  change ((s :: t :: ts) ++ [l]) with (s :: ((t :: ts) ++ [l])).
  rewrite concat_cons by (simpl; discriminate).
  rewrite IH, (concat_cons s (t :: ts)) by discriminate.
  rewrite !str_app_assoc. reflexivity.
Qed.

Lemma concat_ends (segs : list string) :
  segs <> [] -> forallb normal_segment segs = true ->
  exists c l, rev (list_ascii_of_string (String.concat "/" segs)) = c :: l /\ c <> "/"%char.
Proof.
  intros Hne H. destruct (exists_last Hne) as (init & l & ->).
  rewrite forallb_app in H. apply andb_true_iff in H as [_ Hl]. simpl in Hl.
  rewrite andb_true_r in Hl. rewrite concat_snoc.
  destruct init as [|s init].
  - apply (ends_in_segment "" l Hl).
  - rewrite <- str_app_assoc. apply ends_in_segment. exact Hl.
Qed.

Lemma files_target_concat (segs : list string) :
  segs <> [] -> forallb normal_segment segs = true ->
  files_target (String.concat "/" segs) = ("static/" ++ String.concat "/" segs)%string.
Proof.
  intros Hne H. pose proof (components_segments segs H) as Hc.
  destruct (exists_last Hne) as (init & l & Es). subst segs.
  assert (Hl : normal_segment l = true).
  { rewrite forallb_app in H. apply andb_true_iff in H as [_ Hl].
    simpl in Hl. rewrite andb_true_r in Hl. exact Hl. }
  assert (Hi : forallb normal_segment init = true).
  { rewrite forallb_app in H. apply andb_true_iff in H as [Hi _]. exact Hi. }
  destruct (normal_segment_spec l Hl) as (c & r & El & Hcl & Hn).
  assert (Ename : String.eqb l ".." = false).
  { apply String.eqb_neq. intro E. rewrite El in E. injection E as E _. contradiction. }
  assert (Eempty : String.eqb l "" = false).
  { apply String.eqb_neq. rewrite El. discriminate. }
  assert (Hpar : parent (String.concat "/" (init ++ [l])) = Some (String.concat "/" init)).
  { unfold parent. rewrite Hc. destruct (init ++ [l]) eqn:E.
    - destruct init; discriminate.
    - rewrite <- E, removelast_last. reflexivity. }
  assert (Hfn : file_name (String.concat "/" (init ++ [l])) = Some l).
  { unfold file_name. rewrite Hc, rev_app_distr. simpl. rewrite Ename. reflexivity. }
  unfold files_target. rewrite Hpar, Hfn, Eempty. cbv beta iota zeta.
  destruct init as [|s init'].
  - change (String.concat "/" ([] ++ [l])) with l.
    change (push_path "static/" (String.concat "/" [])) with "static/"%string.
    rewrite El, push_path_rel by (intro E; subst; apply Hn; left; reflexivity).
    reflexivity.
  - assert (Hi' := Hi).
    destruct (normal_segment_spec s) as (c1 & r1 & Es1 & _ & Hn1).
    { simpl in Hi'. apply andb_true_iff in Hi'. tauto. }
    assert (Ecat : exists rest, String.concat "/" (s :: init') = String c1 rest).
    { rewrite Es1. destruct init' as [|t ts]; [exists r1; reflexivity|].
      exists (r1 ++ "/" ++ String.concat "/" (t :: ts))%string. reflexivity. }
    destruct Ecat as [rest Ecat].
    assert (Ep : push_path "static/" (String.concat "/" (s :: init')) =
                 ("static/" ++ String.concat "/" (s :: init'))%string).
    { rewrite Ecat. rewrite push_path_rel by (intro E; subst; apply Hn1; left; reflexivity).
      reflexivity. }
    rewrite Ep.
    destruct (concat_ends (s :: init') ltac:(discriminate) Hi) as (c2 & l2 & E2 & Hc2).
    rewrite (push_path_after _ l c2 (l2 ++ rev (list_ascii_of_string "static/")) Hl).
    + rewrite concat_snoc, !str_app_assoc. reflexivity.
    + rewrite list_ascii_append, rev_app_distr, E2. reflexivity.
    + exact Hc2.
Qed.

Lemma forallb_removelast {A : Type} (f : A -> bool) (l : list A) :
  forallb f l = true -> forallb f (removelast l) = true.
Proof.
  induction l as [|a l IH]; intro H; [reflexivity|].
  destruct l as [|b l]; [reflexivity|].
  change (forallb f (a :: b :: l)) with (f a && forallb f (b :: l)) in H.
  apply andb_true_iff in H as [Ha Hl].
  change (removelast (a :: b :: l)) with (a :: removelast (b :: l)).
  change (forallb f (a :: removelast (b :: l))) with (f a && forallb f (removelast (b :: l))).
  rewrite Ha, (IH Hl). reflexivity.
Qed.

Lemma forallb_not_existsb {A : Type} (f : A -> bool) (l : list A) :
  existsb f l = false -> forallb (fun x => negb (f x)) l = true.
Proof.
  induction l as [|a l IH]; simpl; [reflexivity|].
  intro H. apply orb_false_iff in H as [H1 H2]. rewrite H1, (IH H2). reflexivity.
Qed.

Lemma segment_ok_normal (seg : string) :
  seg <> ""%string -> segment_ok seg = true -> normal_segment seg = true.
Proof.
  destruct seg as [|c r]; [congruence|]. intros _ H.
  unfold segment_ok in H. apply negb_true_iff in H.
  repeat rewrite orb_false_iff in H.
  destruct H as [[[[[H1 _] _] _] _] H6].
  change (starts_with "."%char (String c r)) with (Ascii.eqb c "."%char) in H1.
  unfold contains in H6.
  change (normal_segment (String c r)) with
    (negb (Ascii.eqb c "."%char) &&
     forallb (fun c' => negb (Ascii.eqb c' "/"%char)) (list_ascii_of_string (String c r))).
  rewrite H1, (forallb_not_existsb _ _ H6). reflexivity.
Qed.

Lemma pop_concat (acc : list string) :
  forallb normal_segment acc = true ->
  pop_path (String.concat "/" acc) = String.concat "/" (removelast acc).
Proof.
  intro H. unfold pop_path, parent. rewrite components_segments by exact H.
  destruct acc; reflexivity.
Qed.

Lemma push_concat (acc : list string) (seg : string) :
  forallb normal_segment acc = true -> normal_segment seg = true ->
  push_path (String.concat "/" acc) seg = String.concat "/" (acc ++ [seg]).
Proof.
  intros Ha Hs. rewrite concat_snoc. destruct acc as [|a acc'].
  - destruct (normal_segment_spec seg Hs) as (c & r & -> & _ & Hn).
    rewrite push_path_rel by (intro E; subst; apply Hn; left; reflexivity).
    reflexivity.
  - destruct (concat_ends (a :: acc') ltac:(discriminate) Ha) as (c & l & E & Hc).
    exact (push_path_after _ seg c l Hs E Hc).
Qed.

Lemma to_path_buf_from_concat (acc segs : list string) :
  forallb normal_segment acc = true ->
  forallb (fun seg => negb (String.eqb seg "")) segs = true ->
  to_path_buf_from (String.concat "/" acc) segs =
  if forallb (fun seg => String.eqb seg ".." || segment_ok seg) segs
  then Some (String.concat "/" (resolve acc segs)) else None.
Proof.
  revert acc. induction segs as [|seg segs IH]; intros acc Ha Hn; [reflexivity|].
  simpl in Hn. apply andb_true_iff in Hn as [Hne Hn].
  apply negb_true_iff, String.eqb_neq in Hne.
  cbn [to_path_buf_from resolve forallb].
  destruct (String.eqb seg "..").
  - rewrite pop_concat by exact Ha.
    rewrite IH by (first [exact Hn | apply forallb_removelast; exact Ha]). reflexivity.
  - destruct (segment_ok seg) eqn:Eo; [|reflexivity].
    rewrite push_concat by (exact Ha || exact (segment_ok_normal seg Hne Eo)).
    rewrite IH; [reflexivity| |exact Hn].
    rewrite forallb_app, Ha. simpl. rewrite (segment_ok_normal seg Hne Eo). reflexivity.
Qed.

Lemma resolve_normal (acc segs : list string) :
  forallb normal_segment acc = true ->
  forallb (fun seg => negb (String.eqb seg "")) segs = true ->
  forallb (fun seg => String.eqb seg ".." || segment_ok seg) segs = true ->
  forallb normal_segment (resolve acc segs) = true.
Proof.
  revert acc. induction segs as [|seg segs IH]; intros acc Ha Hn Hk; [exact Ha|].
  simpl in Hn, Hk. apply andb_true_iff in Hn as [Hne Hn].
  apply andb_true_iff in Hk as [Hs Hk].
  apply negb_true_iff, String.eqb_neq in Hne.
  cbn [resolve]. destruct (String.eqb seg "..").
  - apply IH; [apply forallb_removelast; exact Ha|exact Hn|exact Hk].
  - apply IH; [|exact Hn|exact Hk].
    rewrite forallb_app, Ha. simpl. rewrite (segment_ok_normal seg Hne Hs). reflexivity.
Qed.

(** [files] under Rocket's [<file..>] guard, for a request path given by
    its non-empty segments: the guard builds the path when every segment
    other than [..] passes its checks, and it is the list of segments
    where each [..] drops the component before it (so [a/../b] gives
    [b]); otherwise the request is refused.  When [files] runs, its path
    is made of normal components only (none is [..] or [.] or starts with
    a dot), and it opens that path under [static/], or
    [static/index.html] when no component is left. *)
Theorem files_serves_segments (segs : list string) :
  forallb (fun seg => negb (String.eqb seg "")) segs = true ->
  to_path_buf segs =
    (if forallb (fun seg => String.eqb seg ".." || segment_ok seg) segs
     then Some (String.concat "/" (resolve [] segs)) else None) /\
  (forall file, to_path_buf segs = Some file ->
     forallb normal_segment (resolve [] segs) = true /\
     files_target file =
       match resolve [] segs with
       | [] => "static/index.html"%string
       | r => ("static/" ++ String.concat "/" r)%string
       end).
Proof.
  intro Hn.
  pose proof (to_path_buf_from_concat [] segs eq_refl Hn) as E.
  change (to_path_buf_from (String.concat "/" []) segs) with (to_path_buf segs) in E.
  split; [exact E|]. intros file Hf. rewrite E in Hf.
  destruct (forallb (fun seg => String.eqb seg ".." || segment_ok seg) segs) eqn:Ea;
    [|discriminate].
  injection Hf as <-.
  pose proof (resolve_normal [] segs eq_refl Hn Ea) as Hr. split; [exact Hr|].
  destruct (resolve [] segs) as [|r0 rs]; [reflexivity|].
  apply files_target_concat; [discriminate|exact Hr].
Qed.

End ServerProofs.

(** * Concrete instances of the theorems with hypotheses *)
Module Witnesses.
Import LRU LRUProofs ConcurrentProofs Server ServerProofs.

Lemma capacity_invariant_witness :
  0 < 2 /\
  Forall (fun s => len s <= 2)
    (run Nat.eq_dec (new 2)
       [OpCreate 1 (fun _ => Some 10) (fun v => v);
        OpCreate 2 (fun _ => Some 20) (fun v => v);
        OpRead 1 (fun _ => tt);
        OpCreate 3 (fun _ => Some 30) (fun v => v); OpLen]).
Proof.
  split; [lia|]. apply (capacity_invariant Nat.eq_dec). lia.
Defined.

Lemma eviction_removes_exactly_lru_witness :
  let s := step Nat.eq_dec
             (step Nat.eq_dec (new 2) (OpCreate 1 (fun _ => Some 10) (fun v => v)))
             (OpCreate 2 (fun _ => Some 20) (fun v => v)) in
  reachable Nat.eq_dec s /\ 0 < capacity s /\
  find Nat.eq_dec 3 (entries s) = None /\
  (fun _ : unit => Some 30) tt = Some 30 /\
  len s = capacity s /\
  (let s' := fst (access_refresh_mut_with_create Nat.eq_dec s 3
                   (fun _ => Some 30) (fun v => v)) in
   (len s = capacity s ->
      exists lru, lru_key (order s) = Some lru /\
        (forall k', In k' (keys s') <-> k' = 3 \/ (In k' (keys s) /\ k' <> lru)) /\
        (forall k', k' <> 3 -> k' <> lru ->
           find Nat.eq_dec k' (entries s') = find Nat.eq_dec k' (entries s)) /\
        len s' = len s) /\
   (len s < capacity s ->
      (forall k', In k' (keys s') <-> k' = 3 \/ In k' (keys s)) /\
      (forall k', k' <> 3 -> find Nat.eq_dec k' (entries s') = find Nat.eq_dec k' (entries s)) /\
      len s' = S (len s))).
Proof.
  intro s.
  assert (Hr : reachable Nat.eq_dec s)
    by (apply reachable_step, reachable_step, reachable_new).
  assert (Hc : 0 < capacity s) by (vm_compute; lia).
  assert (Hf : find Nat.eq_dec 3 (entries s) = None) by reflexivity.
  split; [exact Hr|split; [exact Hc|split; [exact Hf|split; [reflexivity|split]]]].
  - reflexivity.
  - exact (proj1 (eviction_removes_exactly_lru Nat.eq_dec) s 3 (fun _ => Some 30) (fun v => v) 30
             Hr Hc Hf eq_refl).
Defined.

Lemma reachable_no_duplicates_witness :
  let s := step Nat.eq_dec
             (step Nat.eq_dec (new 2) (OpCreate 1 (fun _ => Some 10) (fun v => v)))
             (OpCreate 1 (fun _ => Some 20) (fun v => v + 1)) in
  reachable Nat.eq_dec s /\
  (NoDup (keys s) /\
   (forall k, In k (keys s) -> count_occ Nat.eq_dec (order s) k = 1) /\
   (forall k, In k (order s) -> count_occ Nat.eq_dec (keys s) k = 1)).
Proof.
  intro s.
  assert (Hr : reachable Nat.eq_dec s)
    by (apply reachable_step, reachable_step, reachable_new).
  split; [exact Hr|]. exact (reachable_no_duplicates Nat.eq_dec s Hr).
Defined.

Lemma user_id_cookie_or_fresh_witness :
  (0 <= 7 <= u32_max)%Z /\
  ((forall c n, jar_get "user_id" (mkJar [mkCookie "user_id" "x"] []) = Some c ->
      parse_u32 (cookie_value c) = Some n ->
      user_id (mkJar [mkCookie "user_id" "x"] []) 7 = (n, mkJar [mkCookie "user_id" "x"] [])) /\
   ((jar_get "user_id" (mkJar [mkCookie "user_id" "x"] []) = None \/
     exists c, jar_get "user_id" (mkJar [mkCookie "user_id" "x"] []) = Some c /\
               parse_u32 (cookie_value c) = None) ->
    let '(uid, jar') := user_id (mkJar [mkCookie "user_id" "x"] []) 7 in
    uid = 7%Z /\ jar_cookies jar' = [mkCookie "user_id" "x"] /\
    jar_added jar' = [] ++ [mkCookie "user_id" (to_string 7)] /\
    parse_digits (to_string 7) 0 = Some 7%Z /\
    (exists d rest, to_string 7 = String d rest /\ (d = "0"%char -> rest = EmptyString)) /\
    parse_u32 (to_string 7) = Some 7%Z)).
Proof.
  assert (H : (0 <= 7 <= u32_max)%Z) by (unfold u32_max; lia).
  split; [exact H|]. exact (user_id_cookie_or_fresh (mkJar [mkCookie "user_id" "x"] []) 7 H).
Defined.

Lemma concurrent_create_serialized_witness :
  let create_of (t : tid) (_ : unit) := Some (match t with T1 => 1 | T2 => 2 end) in
  let mutate_of (t : tid) (v : nat) := v * 10 + match t with T1 => 1 | T2 => 2 end in
  let c := mkConfig None Done Done
             (mkStorage 1 [(5, 221)] [5])
             [Acquire T2; Call T2 CallCreate; Call T2 (CallMutate 2);
              Acquire T1; Call T1 (CallMutate 22)] in
  sched_steps Nat.eq_dec 5 create_of mutate_of (init_config (new 1)) c /\
  exists a va, create_of a tt = Some va /\
    trace c = [Acquire a; Call a CallCreate; Call a (CallMutate va);
               Acquire (other a); Call (other a) (CallMutate (mutate_of a va))] /\
    find Nat.eq_dec 5 (entries (store c)) = Some (mutate_of (other a) (mutate_of a va)) /\
    count_occ Nat.eq_dec (keys (store c)) 5 = 1 /\
    lock c = None.
Proof.
  intros create_of mutate_of c.
  assert (Hs : sched_steps Nat.eq_dec 5 create_of mutate_of (init_config (new 1)) c).
  { do 6 (eapply sched_trans;
          [first [ apply (sched_step_task _ _ _ _ _ _ T2); reflexivity
                 | apply (sched_step_task _ _ _ _ _ _ T1); reflexivity ]|]).
    unfold c; vm_compute; apply sched_refl. }
  split; [exact Hs|].
  exact (concurrent_create_serialized Nat.eq_dec 5 create_of mutate_of (new 1) 1 2 c
           (reachable_new Nat.eq_dec 1) eq_refl eq_refl eq_refl Hs eq_refl eq_refl).
Defined.

Lemma user_id_is_u32_witness :
  (0 <= 5 <= u32_max)%Z /\
  (0 <= fst (user_id (mkJar [mkCookie "user_id" "4294967295"] []) 5) <= u32_max)%Z.
Proof.
  assert (H : (0 <= 5 <= u32_max)%Z) by (unfold u32_max; lia).
  split; [exact H|]. exact (user_id_is_u32 (mkJar [mkCookie "user_id" "4294967295"] []) 5 H).
Defined.

Lemma user_id_stable_witness :
  (0 <= 5 <= u32_max)%Z /\ jar_added (mkJar [mkCookie "theme" "dark"] []) = [] /\
  (let '(uid, jar') := user_id (mkJar [mkCookie "theme" "dark"] []) 5 in
   let next := mkJar (jar_added jar' ++ jar_cookies (mkJar [mkCookie "theme" "dark"] [])) [] in
   user_id next 9 = (uid, next)).
Proof.
  assert (H : (0 <= 5 <= u32_max)%Z) by (unfold u32_max; lia).
  split; [exact H|split; [reflexivity|]].
  exact (user_id_stable (mkJar [mkCookie "theme" "dark"] []) 5 9 H eq_refl).
Defined.

Lemma index_revisit_keeps_entries_witness :
  let tetrises := step Z.eq_dec (new 2) (OpCreate 7%Z (fun _ => Some 3) (fun v => v)) in
  let jar := mkJar [mkCookie "user_id" "7"] [] in
  reachable Z.eq_dec tetrises /\
  find Z.eq_dec (fst (user_id jar 0)) (entries tetrises) = Some 3 /\
  (let '(body, _, t') := index (Tetris := nat) (fun w h => w * h) jar 0 tetrises in
   entries t' = entries tetrises /\ len t' = len tetrises /\
   body = to_string (Z.of_nat (len tetrises)) /\
   hd_error (order t') = Some (fst (user_id jar 0))).
Proof.
  intros tetrises jar.
  assert (Hr : reachable Z.eq_dec tetrises) by (apply reachable_step, reachable_new).
  assert (Hf : find Z.eq_dec (fst (user_id jar 0)) (entries tetrises) = Some 3)
    by (vm_compute; reflexivity).
  split; [exact Hr|split; [exact Hf|]].
  exact (index_revisit_keeps_entries (fun w h => w * h) jar 0 tetrises 3 Hr Hf).
Defined.

Lemma index_then_game_state_witness :
  (0 <= 5 <= u32_max)%Z /\ jar_added (mkJar [] []) = [] /\
  (let '(_, jar', t') := index (Tetris := nat) (fun w h => w * h) (mkJar [] []) 5 (new 3) in
   let next := mkJar (jar_added jar' ++ jar_cookies (mkJar [] [])) [] in
   fst (fst (game_state (fun n => to_string (Z.of_nat n)) next 9 t')) =
   inl (to_string (Z.of_nat
          (match find Z.eq_dec (fst (user_id (mkJar [] []) 5)) (entries (new (V := nat) 3)) with
           | Some t => t
           | None => 10 * 20
           end)))).
Proof.
  assert (H : (0 <= 5 <= u32_max)%Z) by (unfold u32_max; lia).
  split; [exact H|split; [reflexivity|]].
  exact (index_then_game_state (fun w h => w * h) (fun n => to_string (Z.of_nat n))
           (mkJar [] []) 5 9 (new 3) H eq_refl).
Defined.

Lemma db_name_from_exe_witness :
  file_name "/usr/bin/server.exe" = Some "server.exe"%string /\
  Forall (fun c => nat_of_ascii c < 128) (list_ascii_of_string "server.exe") /\
  "server"%string <> ""%string /\ ~ In "."%char (list_ascii_of_string "exe") /\
  db_name "/usr/bin/server.exe" = "server.db"%string.
Proof.
  assert (Hf : file_name "/usr/bin/server.exe" = Some "server.exe"%string)
    by (vm_compute; reflexivity).
  assert (Ha : Forall (fun c => nat_of_ascii c < 128) (list_ascii_of_string "server.exe")).
  { simpl. repeat (apply Forall_cons; [apply Nat.ltb_lt; reflexivity|]). apply Forall_nil. }
  assert (Hs : "server"%string <> ""%string) by discriminate.
  assert (Hn : ~ In "."%char (list_ascii_of_string "exe")).
  { simpl. intros [E|[E|[E|[]]]]; discriminate. }
  split; [exact Hf|split; [exact Ha|split; [exact Hs|split; [exact Hn|]]]].
  destruct (db_name_from_exe "/usr/bin/server.exe") as [_ H2].
  destruct (H2 "server.exe"%string Hf Ha) as (_ & H3 & _).
  exact (H3 "server"%string "exe"%string eq_refl Hs Hn).
Defined.

Lemma files_serves_segments_witness :
  forallb (fun seg => negb (String.eqb seg "")) ["a"; ".."; "js"; "app.js"]%string = true /\
  (to_path_buf ["a"; ".."; "js"; "app.js"]%string =
     (if forallb (fun seg => String.eqb seg ".." || segment_ok seg) ["a"; ".."; "js"; "app.js"]%string
      then Some (String.concat "/" (resolve [] ["a"; ".."; "js"; "app.js"]%string)) else None) /\
   (forall file, to_path_buf ["a"; ".."; "js"; "app.js"]%string = Some file ->
      forallb normal_segment (resolve [] ["a"; ".."; "js"; "app.js"]%string) = true /\
      files_target file =
        match resolve [] ["a"; ".."; "js"; "app.js"]%string with
        | [] => "static/index.html"%string
        | r => ("static/" ++ String.concat "/" r)%string
        end)).
Proof.
  assert (H : forallb (fun seg => negb (String.eqb seg "")) ["a"; ".."; "js"; "app.js"]%string = true)
    by reflexivity.
  split; [exact H|]. exact (files_serves_segments ["a"; ".."; "js"; "app.js"]%string H).
Defined.

End Witnesses.
